(** * Eviction sweep and connectivity check of the desktop client

    A shallow embedding of the parts of [src/gui/application.cpp] that keep
    the virtual drive's cache small and the accounts' connections checked:

    - [removeDirs]                          (application.cpp, l. 747-774)
    - [Application::slotDeleteOnlineFiles]  (application.cpp, l. 776-856)
    - [Application::slotCheckConnection]    (application.cpp, l. 442-463)
    - [Application::slotAccountStateRemoved](application.cpp, l. 316-348)

    The journal ([SyncJournalDb]), the account objects ([AccountState],
    [AccountManager]) and the GUI ([ownCloudGui], [OwncloudSetupWizard]) are
    collaborators whose code is not part of [application.cpp]; what the slots
    need of them is modelled from the specification and marked as such. *)

From Stdlib Require Import ZArith Ascii.
From stdpp Require Import gmap strings list fin_maps.

Local Open Scope Z_scope.
Local Set Warnings "-register-all".

(** ** Paths

    A [QString] path such as [docs/report.pdf] is kept as the list of its
    components, root first.  Appending an item to the cache prefix
    ([relative_prefix.append(item)], the prefix ending in a slash) is list
    concatenation. *)

Abbreviation path := (list string).

(** ** The file system the sweep works on *)

(** What [QFile::remove] and [QFile::setPermissions] depend on, per file:
    the [QFile::WriteUser] permission bit, whether another process holds
    the file (removal is refused whatever the permissions are), and whether
    the user may change the file's permissions. *)
Record FileAttr : Type := MkAttr {
  writeUser : bool;
  inUse : bool;
  ownedByUser : bool
}.

(** A directory: its sub-directories and its files, by name, each list in
    the order of the listing.  The split is the order of
    [QDir::entryInfoList(..., QDir::DirsFirst)]: the sub-directories are
    listed before the files.  There are no symbolic links. *)
Inductive Dir : Type :=
  MkDir (subdirs : list (string * Dir)) (files : list (string * FileAttr)).

Definition subdirs (d : Dir) : list (string * Dir) :=
  match d with MkDir ds _ => ds end.

Definition files (d : Dir) : list (string * FileAttr) :=
  match d with MkDir _ fs => fs end.

(** First entry of that name. *)
Fixpoint assoc {A : Type} (name : string) (l : list (string * A)) : option A :=
  match l with
  | [] => None
  | (k, v) :: l' => if decide (k = name) then Some v else assoc name l'
  end.

(** Entries of another name. *)
Definition without {A : Type} (name : string) (l : list (string * A))
  : list (string * A) :=
  filter (λ e, e.1 ≠ name) l.

(** The entries of that name changed by [g]. *)
Definition onEntry {A : Type} (name : string) (g : A → A)
    (l : list (string * A)) : list (string * A) :=
  map (λ e, if decide (e.1 = name) then (e.1, g e.2) else e) l.

Fixpoint lookupDir (p : path) (d : Dir) : option Dir :=
  match p with
  | [] => Some d
  | name :: p' =>
      match assoc name (subdirs d) with
      | Some d' => lookupDir p' d'
      | None => None
      end
  end.

Fixpoint lookupFile (p : path) (d : Dir) : option FileAttr :=
  match p with
  | [] => None
  | name :: p' =>
      match p' with
      | [] => assoc name (files d)
      | _ :: _ =>
          match assoc name (subdirs d) with
          | Some d' => lookupFile p' d'
          | None => None
          end
      end
  end.

(** The directory at [p] replaced by [f] of it. *)
Fixpoint alterDir (f : Dir → Dir) (p : path) (d : Dir) : Dir :=
  match p with
  | [] => f d
  | name :: p' => MkDir (onEntry name (alterDir f p') (subdirs d)) (files d)
  end.

(** The file at [p] taken out of the directory that holds it. *)
Fixpoint unlink (p : path) (d : Dir) : Dir :=
  match p with
  | [] => d
  | name :: p' =>
      match p' with
      | [] => MkDir (subdirs d) (without name (files d))
      | _ :: _ => MkDir (onEntry name (unlink p') (subdirs d)) (files d)
      end
  end.

Definition grantWriteUser (a : FileAttr) : FileAttr :=
  MkAttr true (inUse a) (ownedByUser a).

(** [QDir(p).exists()] and [QFile(p).exists()], for a path that the caller
    has found not to be a directory. *)
Definition dirExists (p : path) (d : Dir) : bool :=
  bool_decide (is_Some (lookupDir p d)).

Definition fileExists (p : path) (d : Dir) : bool :=
  bool_decide (is_Some (lookupFile p d)).

(** Whether the operating system removes a file with these attributes: a
    read-only file is not removed (the case [removeDirs] provides for), nor
    is a file that another process holds. *)
Definition removable (a : FileAttr) : bool := writeUser a && negb (inUse a).

(** ** What the slots do to the outside, in order *)

Inductive Event : Type :=
  | EvRemove (p : path) (ok : bool)          (* QFile::remove(p) returned ok *)
  | EvSetPermissions (p : path) (ok : bool)  (* QFile::setPermissions(p, perms | WriteUser) *)
  | EvMsleep (ms : Z)                        (* QThread::msleep(ms) *)
  | EvDeleteFileRecord (p : path) (recursively : bool).
                                             (* SyncJournalDb::deleteFileRecord *)

(** ** [removeDirs]

    One file of the listing (the [else] branch of the loop, l. 757-765):
    remove it; when that fails and the [WriteUser] bit is missing, set the
    bit and remove again.  Returns [result], what is left of the file, and
    the calls made. *)
Definition removeFileEntry (abs : path) (a : FileAttr)
  : bool * option FileAttr * list Event :=
  if removable a then (true, None, [EvRemove abs true])
  else if negb (writeUser a) then
    if ownedByUser a then
      let a' := grantWriteUser a in
      if removable a'
      then (true, None,
            [EvRemove abs false; EvSetPermissions abs true; EvRemove abs true])
      else (false, Some a',
            [EvRemove abs false; EvSetPermissions abs true; EvRemove abs false])
    else (false, Some a, [EvRemove abs false; EvSetPermissions abs false])
  else (false, Some a, [EvRemove abs false]).

(** The files of the listing in order, up to the first one whose [result]
    is false ([if (!result) return result;], l. 767-769); the files behind
    it are not visited. *)
Fixpoint removeFileEntries (dirName : path) (l : list (string * FileAttr))
  : bool * list (string * FileAttr) * list Event :=
  match l with
  | [] => (true, [], [])
  | (name, a) :: rest =>
      match removeFileEntry (dirName ++ [name]) a with
      | (true, _, ev) =>
          let '(r, rest', ev') := removeFileEntries dirName rest in
          (r, rest', ev ++ ev')
      | (false, None, ev) => (false, rest, ev)
      | (false, Some a', ev) => (false, (name, a') :: rest, ev)
      end
  end.

(** [removeDirs(dirName)] on the directory [d] found at [dirName]: the
    sub-directories first, each by a recursive call, then the files.  A
    false [result] ends the loop at once.  After the loop the function sets
    [result = true] (l. 771): it makes no call that removes a directory. *)
Fixpoint removeDirs (dirName : path) (d : Dir) : bool * Dir * list Event :=
  match d with
  | MkDir ds fs =>
      let fix subdirsFirst (l : list (string * Dir))
        : bool * list (string * Dir) * list Event :=
        match l with
        | [] => (true, [], [])
        | (name, sub) :: rest =>
            let '(r, sub', ev) := removeDirs (dirName ++ [name]) sub in
            if r then
              let '(r', rest', ev') := subdirsFirst rest in
              (r', (name, sub') :: rest', ev ++ ev')
            else (false, (name, sub') :: rest, ev)
        end in
      let '(r, ds', ev) := subdirsFirst ds in
      if r then
        let '(r', fs', ev') := removeFileEntries dirName fs in
        (r', MkDir ds' fs', ev ++ ev')
      else (false, MkDir ds' fs, ev)
  end.

(** The loop of [removeDirs] over the sub-directories, by itself. *)
Fixpoint removeSubdirs (dirName : path) (l : list (string * Dir))
  : bool * list (string * Dir) * list Event :=
  match l with
  | [] => (true, [], [])
  | (name, sub) :: rest =>
      let '(r, sub', ev) := removeDirs (dirName ++ [name]) sub in
      if r then
        let '(r', rest', ev') := removeSubdirs dirName rest in
        (r', (name, sub') :: rest', ev ++ ev')
      else (false, (name, sub') :: rest, ev)
  end.

(** *** Vocabulary for what [removeDirs] leaves behind *)

(** The file is gone after [removeFileEntry]: it is not in use, and has
    the [WriteUser] bit or can be given it. *)
Definition clearable (a : FileAttr) : bool :=
  negb (inUse a) && (writeUser a || ownedByUser a).

(** Every file below [d], at any depth, satisfies [P]. *)
Fixpoint allFiles (P : FileAttr → bool) (d : Dir) : bool :=
  match d with
  | MkDir ds fs =>
      (fix below (l : list (string * Dir)) : bool :=
         match l with
         | [] => true
         | (_, sub) :: rest => allFiles P sub && below rest
         end) ds
      && forallb (λ e, P e.2) fs
  end.

(** The directories of [d] without any file. *)
Fixpoint skeleton (d : Dir) : Dir :=
  match d with
  | MkDir ds _ =>
      MkDir ((fix below (l : list (string * Dir)) : list (string * Dir) :=
                match l with
                | [] => []
                | (name, sub) :: rest => (name, skeleton sub) :: below rest
                end) ds) []
  end.

(** The number of files below [d], at any depth. *)
Fixpoint countFiles (d : Dir) : nat :=
  match d with
  | MkDir ds fs =>
      ((fix below (l : list (string * Dir)) : nat :=
          match l with
          | [] => O
          | (_, sub) :: rest => (countFiles sub + below rest)%nat
          end) ds + length fs)%nat
  end.

(** ** The journal

    [SyncJournalDb] is not part of [application.cpp]; its declarations are
    taken from the specification's data model (one record per path, keyed
    by the path). *)

(** Modelled from the spec: [SyncJournalDb::SyncMode], the per-path policy
    (Online: may be a placeholder; Offline: always kept on disk). *)
Inductive SyncMode : Type := SYNCMODE_ONLINE | SYNCMODE_OFFLINE.

(** Modelled from the spec: [SyncJournalDb::SyncModeDownload], the download
    status None / Partial / Full under the names the slot uses for it. *)
Inductive SyncModeDownload : Type :=
  | SYNCMODE_DOWNLOADED_NONE
  | SYNCMODE_DOWNLOADED_NO
  | SYNCMODE_DOWNLOADED_YES.

(** Modelled from the spec: the SyncPathRecord of a path (the path itself
    is the key of the journal). *)
Record SyncPathRecord : Type := MkRecord {
  syncMode : SyncMode;
  downloadStatus : SyncModeDownload;
  lastAccessAt : Z
}.

#[global] Instance SyncMode_eq_dec : EqDecision SyncMode.
Proof. solve_decision. Defined.

#[global] Instance SyncModeDownload_eq_dec : EqDecision SyncModeDownload.
Proof. solve_decision. Defined.

(** ** The state the sweep runs in, and its runs *)

Record World : Type := MkWorld {
  journal : gmap path SyncPathRecord;
  disk : Dir;
  trace : list Event
}.

(** A run from a world either ends with a value and a world, or does not
    end within the iterations granted to its loops ([None]). *)
Definition Run (A : Type) : Type := World → option (A * World).

#[global] Instance Run_ret : MRet Run := λ A a w, Some (a, w).

#[global] Instance Run_bind : MBind Run := λ A B k m w,
  match m w with
  | Some (a, w') => k a w'
  | None => None
  end.

Definition emit (e : Event) : Run unit := λ w,
  Some ((), MkWorld (journal w) (disk w) (trace w ++ [e])).

(** [foreach(item, list) body]. *)
Fixpoint foreach {A : Type} (body : A → Run unit) (l : list A) : Run unit :=
  match l with
  | [] => mret ()
  | item :: rest => body item ;; foreach body rest
  end.

(** *** Calls on the file system *)

Definition QDir_exists (p : path) : Run bool := λ w,
  Some (dirExists p (disk w), w).

Definition QFile_exists (p : path) : Run bool := λ w,
  Some (fileExists p (disk w), w).

(** [QFile::remove(p)]: true when there is a file at [p] and the operating
    system removes it. *)
Definition QFile_remove (p : path) : Run bool := λ w,
  match lookupFile p (disk w) with
  | Some a =>
      if removable a
      then Some (true, MkWorld (journal w) (unlink p (disk w))
                               (trace w ++ [EvRemove p true]))
      else Some (false, MkWorld (journal w) (disk w)
                                (trace w ++ [EvRemove p false]))
  | None => Some (false, MkWorld (journal w) (disk w)
                                 (trace w ++ [EvRemove p false]))
  end.

Definition msleep (ms : Z) : Run unit := emit (EvMsleep ms).

(** The call [removeDirs(dirName)]: [dir.exists(dirName)] guards the loop,
    and the function returns its initial [result = true] without it. *)
Definition removeDirsAt (dirName : path) : Run bool := λ w,
  match lookupDir dirName (disk w) with
  | Some d =>
      let '(result, d', ev) := removeDirs dirName d in
      Some (result, MkWorld (journal w)
                            (alterDir (λ _, d') dirName (disk w))
                            (trace w ++ ev))
  | None => Some (true, w)
  end.

(** *** Calls on the journal *)

(** Modelled from the spec: [getSyncModePaths()] (listPaths with no filter),
    the paths that have a record, as a snapshot taken at the call. *)
Definition getSyncModePaths : Run (list path) := λ w,
  Some ((map_to_list (journal w)).*1, w).

(** Modelled from the spec: [getSyncMode(path)], the mode or absent. *)
Definition getSyncMode (item : path) : Run (option SyncMode) := λ w,
  Some (syncMode <$> journal w !! item, w).

(** Modelled from the spec: [getSyncModeDownload(path)]
    (getDownloadStatus), the status or absent. *)
Definition getSyncModeDownload (item : path)
  : Run (option SyncModeDownload) := λ w,
  Some (downloadStatus <$> journal w !! item, w).

(** Modelled from the spec: [secondsSinceLastAccess(path)] at the time
    [now], absent when the path has no record. *)
Definition secondsSinceLastAccess (now : Z) (item : path)
  : Run (option Z) := λ w,
  Some ((λ r, now - lastAccessAt r) <$> journal w !! item, w).

(** Modelled from the spec: [deleteSyncMode(path)] (deleteRecord), which
    removes the record of the path entirely. *)
Definition deleteSyncMode (item : path) : Run unit := λ w,
  Some ((), MkWorld (delete item (journal w)) (disk w) (trace w)).

(** [deleteFileRecord(path, recursively)] works on the journal's table of
    file metadata, which holds no sync mode and no download status; the
    call is recorded. *)
Definition deleteFileRecord (item : path) (recursively : bool) : Run unit :=
  emit (EvDeleteFileRecord item recursively).

(** ** [Application::slotDeleteOnlineFiles] *)

(** The test of l. 817-819, [m_secondsSinceLastAccess > 65 && mode ==
    SYNCMODE_ONLINE], on what the journal returned.  A path without a
    record has no mode, so the test is false for it. *)
Definition idleOnline (m_secondsSinceLastAccess : option Z)
    (mode : option SyncMode) : bool :=
  match m_secondsSinceLastAccess, mode with
  | Some secs, Some SYNCMODE_ONLINE => bool_decide (65 < secs)
  | _, _ => false
  end.

(** A loop that has used up the iterations granted to it. *)
Definition outOfFuel {A : Type} : Run A := λ _, None.

(** [while (file.exists()) { QFile::remove(realPathItem);
    QThread::msleep(100); }] with a bound on its iterations. *)
Fixpoint whileFileExists (fuel : nat) (realPathItem : path) : Run unit :=
  file_exists ← QFile_exists realPathItem;
  if file_exists : bool then
    match fuel with
    | O => outOfFuel
    | S fuel' =>
        QFile_remove realPathItem ;;
        msleep 100 ;;
        whileFileExists fuel' realPathItem
    end
  else mret ().

Section Sweep.

(** The cache directory the items are relative to (platform dependent,
    l. 823-827), and the time of the sweep.  The journal answers every
    [secondsSinceLastAccess] of one sweep for that one time: the sleeps of
    the loop are recorded, not added to it. *)
Variable relative_prefix : path.
Variable now : Z.

(** The branch of l. 820-853: delete what is cached for the item, then its
    records. *)
Definition evict (fuel : nat) (item : path) : Run unit :=
  let realPathItem := relative_prefix ++ item in
  isDir ← QDir_exists realPathItem;
  (if isDir : bool then
     removeDirsAt realPathItem ;;
     deleteFileRecord item true
   else
     whileFileExists fuel realPathItem ;;
     deleteFileRecord item false) ;;
  deleteSyncMode item.

(** The body of the [foreach] (l. 793-853).  The download status is read
    for the debug output only. *)
Definition sweepItem (fuel : nat) (item : path) : Run unit :=
  m_secondsSinceLastAccess ← secondsSinceLastAccess now item;
  mode ← getSyncMode item;
  down ← getSyncModeDownload item;
  if idleOnline m_secondsSinceLastAccess mode then evict fuel item
  else mret ().

Definition slotDeleteOnlineFiles (fuel : nat) : Run unit :=
  list ← getSyncModePaths;
  if bool_decide (list ≠ []) then foreach (sweepItem fuel) list
  else mret ().

(** Whether the test of l. 817-819 holds for [item] in the journal [j]. *)
Definition selected (j : gmap path SyncPathRecord) (item : path) : bool :=
  idleOnline ((λ r, now - lastAccessAt r) <$> j !! item)
             (syncMode <$> j !! item).

End Sweep.

(** That a sweep started in [w] does not end, however many iterations its
    loops are granted. *)
Definition diverges (sweep : nat → Run unit) (w : World) : Prop :=
  ∀ fuel, sweep fuel w = None.

(** ** Accounts and the connectivity check *)

(** Modelled from the spec: [AccountState::State], the connectivity state
    of an account ([accountstate.h] is not among the sources). *)
Inductive State : Type :=
  | SignedOut
  | Connecting
  | Connected
  | ConfigurationError
  | AskingCredentials.

#[global] Instance State_eq_dec : EqDecision State.
Proof. solve_decision. Defined.

(** Modelled from the spec: the AccountConnectivityState of an account. *)
Record AccountState : Type := MkAccount {
  identity : string;
  state : State;
  lastCheckedAt : Z
}.

(** What the setup flow is asked to do. *)
Inductive SetupRequest : Type :=
  | NewAccountWizard.   (* prompt for the creation of an account *)

(** What the two slots read and write: the account manager's accounts,
    whether [_checkConnectionTimer] is running, the accounts on which
    [checkConnectivity()] was called, and the requests made to the setup
    flow, both in order. *)
Record Application : Type := MkApp {
  accounts : list AccountState;
  checkConnectionTimerActive : bool;
  checked : list string;
  setupFlow : list SetupRequest
}.

(** Modelled from the spec: [OwncloudSetupWizard::runWizard], the signal to
    the setup flow that asks for an account to be created. *)
Definition runWizard : list SetupRequest := [NewAccountWizard].

(** Modelled from the spec: [ownCloudGui::slotOpenSettingsDialog] as called
    with no account configured ("let gui open the setup wizard", l. 458):
    the same signal to the setup flow. *)
Definition slotOpenSettingsDialog : list SetupRequest := [NewAccountWizard].

(** The guard of l. 450-452. *)
Definition isChecked (s : State) : bool :=
  bool_decide (s ≠ SignedOut)
  && bool_decide (s ≠ ConfigurationError)
  && bool_decide (s ≠ AskingCredentials).

Section Connectivity.

(** [AccountState::checkConnectivity()] is not part of [application.cpp]:
    what a call makes of the account is left open. *)
Variable checkConnectivity : AccountState → AccountState.

(** The body of the [foreach] of l. 445-455. *)
Definition checkAccount (accountState : AccountState) : AccountState :=
  if isChecked (state accountState) then checkConnectivity accountState
  else accountState.

Definition slotCheckConnection (app : Application) : Application :=
  let list := accounts app in
  let accounts' := checkAccount <$> list in
  let checked' :=
    checked app ++ (identity <$> filter (λ a, isChecked (state a)) list) in
  if bool_decide (list = []) then
    MkApp accounts' false checked' (setupFlow app ++ slotOpenSettingsDialog)
  else
    MkApp accounts' (checkConnectionTimerActive app) checked' (setupFlow app).

(** [_checkConnectionTimer]'s [timeout] signal is connected to the slot
    (l. 260); a stopped timer does not emit it. *)
Definition timeout (app : Application) : Application :=
  if checkConnectionTimerActive app then slotCheckConnection app else app.

End Connectivity.

(** [Application::slotAccountStateRemoved]: the signal connections it
    undoes are not part of the state; what is left is l. 342-347. *)
Definition slotAccountStateRemoved (accountState : AccountState)
    (app : Application) : Application :=
  if bool_decide (accounts app = []) then
    MkApp (accounts app) (checkConnectionTimerActive app) (checked app)
          (setupFlow app ++ runWizard)
  else app.

(** Modelled from the spec: the account manager's removal of an account,
    which takes the account out of the set and then emits [accountRemoved],
    connected to the slot above (l. 247-248). *)
Definition removeAccount (accountState : AccountState) (app : Application)
  : Application :=
  slotAccountStateRemoved accountState
    (MkApp (filter (λ a, identity a ≠ identity accountState) (accounts app))
           (checkConnectionTimerActive app) (checked app) (setupFlow app)).

(** Any number of timeouts of the timer, each with its own outcome of the
    connectivity checks. *)
Inductive timeouts : Application → Application → Prop :=
  | timeouts_none app : timeouts app app
  | timeouts_more checkConnectivity app app' :
      timeouts (timeout checkConnectivity app) app' → timeouts app app'.

(** ** Scenarios

    Concrete worlds for the examples below.  The cache is the directory
    [cachedFiles] at the root, the sweep runs at second 1000, and an access
    at second 300 is 700 seconds old. *)

Definition cachePrefix : path := ["cachedFiles"].

Definition cache (d : Dir) : Dir := MkDir [("cachedFiles", d)] [].

Definition plainFile : FileAttr := MkAttr true false true.
Definition readOnlyFile : FileAttr := MkAttr false false true.
Definition heldFile : FileAttr := MkAttr false true true.

Definition reportPdf : path := ["docs"; "report.pdf"].

(** Scenario A of the specification: one Online record, fully downloaded,
    last accessed 700 seconds ago. *)
Definition scenarioA : World :=
  MkWorld {[ reportPdf := MkRecord SYNCMODE_ONLINE SYNCMODE_DOWNLOADED_YES 300 ]}
          (cache (MkDir [("docs", MkDir [] [("report.pdf", plainFile)])] []))
          [].

(** An idle Online record with nothing downloaded and nothing cached. *)
Definition nothingDownloaded : World :=
  MkWorld {[ reportPdf := MkRecord SYNCMODE_ONLINE SYNCMODE_DOWNLOADED_NONE 300 ]}
          (cache (MkDir [("docs", MkDir [] [])] []))
          [].

(** An idle Online directory that holds a file kept Offline, accessed ten
    seconds ago. *)
Definition offlineInsideOnline : World :=
  MkWorld (<[ ["docs"] := MkRecord SYNCMODE_ONLINE SYNCMODE_DOWNLOADED_YES 300 ]>
           {[ reportPdf := MkRecord SYNCMODE_OFFLINE SYNCMODE_DOWNLOADED_YES 990 ]})
          (cache (MkDir [("docs", MkDir [] [("report.pdf", plainFile)])] []))
          [].

(** An idle Online directory with a read-only file that another process
    holds, and a second idle Online record. *)
Definition heldInsideDirectory : World :=
  MkWorld (<[ ["docs"] := MkRecord SYNCMODE_ONLINE SYNCMODE_DOWNLOADED_YES 300 ]>
           {[ ["notes.txt"] := MkRecord SYNCMODE_ONLINE SYNCMODE_DOWNLOADED_YES 300 ]})
          (cache (MkDir [("docs", MkDir [] [("report.pdf", heldFile)])]
                        [("notes.txt", plainFile)]))
          [].

(** Scenario C of the specification, for a file: an idle Online file whose
    [WriteUser] bit is missing. *)
Definition readOnlyPath : World :=
  MkWorld {[ reportPdf := MkRecord SYNCMODE_ONLINE SYNCMODE_DOWNLOADED_YES 300 ]}
          (cache (MkDir [("docs", MkDir [] [("report.pdf", readOnlyFile)])] []))
          [].

(** An idle Online file that is read-only and held by another process. *)
Definition heldPath : World :=
  MkWorld {[ reportPdf := MkRecord SYNCMODE_ONLINE SYNCMODE_DOWNLOADED_YES 300 ]}
          (cache (MkDir [("docs", MkDir [] [("report.pdf", heldFile)])] []))
          [].

(** Three idle Online paths, visited in the order [notes.txt],
    [docs/report.pdf], [music]; the second is a read-only file. *)
Definition readOnlyBehindNotes : World :=
  MkWorld (<[ ["notes.txt"] := MkRecord SYNCMODE_ONLINE SYNCMODE_DOWNLOADED_YES 300 ]>
           (<[ reportPdf := MkRecord SYNCMODE_ONLINE SYNCMODE_DOWNLOADED_YES 300 ]>
            {[ ["music"] := MkRecord SYNCMODE_ONLINE SYNCMODE_DOWNLOADED_YES 300 ]}))
          (cache (MkDir [("docs", MkDir [] [("report.pdf", readOnlyFile)]);
                         ("music", MkDir [] [("song.ogg", plainFile)])]
                        [("notes.txt", plainFile)]))
          [].

(** Scenario C for a directory: an idle Online directory with a read-only
    file in it. *)
Definition readOnlyInsideDirectory : World :=
  MkWorld {[ ["docs"] := MkRecord SYNCMODE_ONLINE SYNCMODE_DOWNLOADED_YES 300 ]}
          (cache (MkDir [("docs", MkDir [] [("report.pdf", readOnlyFile)])] []))
          [].

(** An idle Online directory with a file, a sub-directory and a file in
    the sub-directory. *)
Definition directoryTree : World :=
  MkWorld {[ ["docs"] := MkRecord SYNCMODE_ONLINE SYNCMODE_DOWNLOADED_YES 300 ]}
          (cache (MkDir [("docs",
                          MkDir [("old", MkDir [] [("draft.txt", readOnlyFile)])]
                                [("report.pdf", plainFile)])] []))
          [].

(** The worlds a sweep at second 1000 makes of some of the above. *)
Definition afterScenarioA : World :=
  MkWorld ∅
          (cache (MkDir [("docs", MkDir [] [])] []))
          [EvRemove (cachePrefix ++ reportPdf) true; EvMsleep 100;
           EvDeleteFileRecord reportPdf false].

Definition afterNothingDownloaded : World :=
  MkWorld ∅
          (cache (MkDir [("docs", MkDir [] [])] []))
          [EvDeleteFileRecord reportPdf false].

Definition afterOfflineInsideOnline : World :=
  MkWorld {[ reportPdf := MkRecord SYNCMODE_OFFLINE SYNCMODE_DOWNLOADED_YES 990 ]}
          (cache (MkDir [("docs", MkDir [] [])] []))
          [EvRemove (cachePrefix ++ reportPdf) true;
           EvDeleteFileRecord ["docs"] true].

Definition afterHeldInsideDirectory : World :=
  MkWorld ∅
          (cache (MkDir [("docs", MkDir [] [("report.pdf", MkAttr true true true)])]
                        []))
          [EvRemove (cachePrefix ++ ["notes.txt"]) true; EvMsleep 100;
           EvDeleteFileRecord ["notes.txt"] false;
           EvRemove (cachePrefix ++ reportPdf) false;
           EvSetPermissions (cachePrefix ++ reportPdf) true;
           EvRemove (cachePrefix ++ reportPdf) false;
           EvDeleteFileRecord ["docs"] true].

Definition afterReadOnlyInsideDirectory : World :=
  MkWorld ∅
          (cache (MkDir [("docs", MkDir [] [])] []))
          [EvRemove (cachePrefix ++ reportPdf) false;
           EvSetPermissions (cachePrefix ++ reportPdf) true;
           EvRemove (cachePrefix ++ reportPdf) true;
           EvDeleteFileRecord ["docs"] true].

Definition afterDirectoryTree : World :=
  MkWorld ∅
          (cache (MkDir [("docs", MkDir [("old", MkDir [] [])] [])] []))
          [EvRemove (cachePrefix ++ ["docs"; "old"; "draft.txt"]) false;
           EvSetPermissions (cachePrefix ++ ["docs"; "old"; "draft.txt"]) true;
           EvRemove (cachePrefix ++ ["docs"; "old"; "draft.txt"]) true;
           EvRemove (cachePrefix ++ reportPdf) true;
           EvDeleteFileRecord ["docs"] true].

(** An idle Online directory beside an Online file accessed ten seconds
    before the sweep at second 1000; the world that sweep makes of it, and
    the world a sweep at second 1060 makes of that. *)
Definition recentBesideIdle : World :=
  MkWorld (<[ ["docs"] := MkRecord SYNCMODE_ONLINE SYNCMODE_DOWNLOADED_YES 300 ]>
           {[ ["notes.txt"] := MkRecord SYNCMODE_ONLINE SYNCMODE_DOWNLOADED_YES 990 ]})
          (cache (MkDir [("docs", MkDir [] [("report.pdf", plainFile)])]
                        [("notes.txt", plainFile)]))
          [].

Definition afterRecentBesideIdle : World :=
  MkWorld {[ ["notes.txt"] := MkRecord SYNCMODE_ONLINE SYNCMODE_DOWNLOADED_YES 990 ]}
          (cache (MkDir [("docs", MkDir [] [])] [("notes.txt", plainFile)]))
          [EvRemove (cachePrefix ++ reportPdf) true;
           EvDeleteFileRecord ["docs"] true].

Definition laterRecentBesideIdle : World :=
  MkWorld ∅
          (cache (MkDir [("docs", MkDir [] [])] []))
          [EvRemove (cachePrefix ++ reportPdf) true;
           EvDeleteFileRecord ["docs"] true;
           EvRemove (cachePrefix ++ ["notes.txt"]) true; EvMsleep 100;
           EvDeleteFileRecord ["notes.txt"] false].

(** Two accounts, one signed out and one connecting, and a check that
    connects every account it is called on. *)
Definition twoAccounts : Application :=
  MkApp [MkAccount "alice" SignedOut 0; MkAccount "bob" Connecting 0]
        true [] [].

Definition probeSucceeds (a : AccountState) : AccountState :=
  MkAccount (identity a) Connected (lastCheckedAt a + 32).

Definition noAccounts : Application := MkApp [] true [] [].

Definition oneAccount : Application :=
  MkApp [MkAccount "alice" Connected 0] true [] [].

(** ** Strings

    [QString] values are strings of characters; [startsWith] is
    [String.prefix] and [+] is [String.append]. *)

(** [s.replace(before, after)] for two characters: every occurrence. *)
Fixpoint replaceChar (before after : ascii) (s : string) : string :=
  match s with
  | EmptyString => EmptyString
  | String c s' =>
      String (if decide (c = before) then after else c)
             (replaceChar before after s')
  end.

(** [s.replace(before, after)] for a character and a string. *)
Fixpoint replaceCharBy (before : ascii) (after : string) (s : string) : string :=
  match s with
  | EmptyString => EmptyString
  | String c s' =>
      if decide (c = before)
      then String.append after (replaceCharBy before after s')
      else String c (replaceCharBy before after s')
  end.

(** [s.mid(n)]: [s] without its first [n] characters. *)
Fixpoint mid (n : nat) (s : string) : string :=
  match n, s with
  | O, _ => s
  | S n', String _ s' => mid n' s'
  | S _, EmptyString => EmptyString
  end.

(** [s.split(sep)] with empty parts kept, as [QString::split] does unless
    told otherwise: the parts between the separators, one more than there
    are separators. *)
Fixpoint split (sep : ascii) (s : string) : list string :=
  match s with
  | EmptyString => [EmptyString]
  | String c s' =>
      if decide (c = sep) then EmptyString :: split sep s'
      else match split sep s' with
           | part :: parts => String c part :: parts
           | [] => [String c EmptyString]
           end
  end.

(** [list.join(sep)]. *)
Fixpoint join (sep : ascii) (parts : list string) : string :=
  match parts with
  | [] => EmptyString
  | [part] => part
  | part :: parts' => String.append part (String sep (join sep parts'))
  end.

(** Whether the character occurs in the string. *)
Fixpoint occurs (c : ascii) (s : string) : bool :=
  match s with
  | EmptyString => false
  | String c' s' => bool_decide (c' = c) || occurs c s'
  end.

(** ** [substLang] and [Application::setupTranslations] *)

(** [substLang] (l. 673-686). *)
Definition substLang (lang : string) : string :=
  if decide (lang = "zh_Hans") then "zh_CN"
  else if decide (lang = "zh_Hant") then "zh_TW"
  else lang.

(** The language as the loop of [setupTranslations] uses it (l. 708-709). *)
Definition normalised (lang : string) : string :=
  substLang (replaceChar "-"%char "_"%char lang).

(** The [ui_lang] property of the application (unset at first) and the
    translation files of the translators installed, in order. *)
Record Translations : Type := MkTranslations {
  ui_lang : option string;
  installed : list (string * string)
}.

Section Translating.

(** Whether [QTranslator::load(file, directory)] finds and loads the file,
    and the two directories the slot looks in: [applicationTrPath()] and
    the translations path of the Qt library. *)
Variable loads : string → string → bool.
Variable trPath qtTrPath : string.

(** A fresh translator after a chain of [load] calls that stops at the
    first success: the file it holds, if any. *)
Definition firstLoaded (candidates : list (string * string))
  : option (string * string) :=
  List.find (λ c, loads c.1 c.2) candidates.

(** The test of l. 712. *)
Definition accepted (lang : string) : bool :=
  loads (String.append "client_" lang) trPath || String.prefix "en" lang.

(** The branch of l. 712-741 for an accepted language. *)
Definition useLanguage (lang : string) (t : Translations) : Translations :=
  let translator := firstLoaded [(String.append "client_" lang, trPath)] in
  let qtTrFile := String.append "qt_" lang in
  let qtBaseTrFile := String.append "qtbase_" lang in
  let qtTranslator :=
    firstLoaded [(qtTrFile, qtTrPath); (qtTrFile, trPath);
                 (qtBaseTrFile, qtTrPath); (qtBaseTrFile, trPath)] in
  let qtkeychainTrFile := String.append "qtkeychain_" lang in
  let qtkeychainTranslator :=
    firstLoaded [(qtkeychainTrFile, qtTrPath); (qtkeychainTrFile, trPath)] in
  MkTranslations (Some lang)
    (installed t ++ option_list translator ++ option_list qtTranslator
     ++ option_list qtkeychainTranslator).

(** The [foreach] of l. 707-744: the first accepted language is used and
    ends the loop; a language that is not accepted sets [ui_lang] to [C]
    when it is still unset. *)
Fixpoint tryLanguages (uiLanguages : list string) (t : Translations)
  : Translations :=
  match uiLanguages with
  | [] => t
  | lang0 :: rest =>
      let lang := normalised lang0 in
      if accepted lang then useLanguage lang t
      else tryLanguages rest
             (match ui_lang t with
              | None => MkTranslations (Some "C") (installed t)
              | Some _ => t
              end)
  end.

(** [Application::setupTranslations] (l. 688-745), given the user
    interface languages of the system locale and the theme's enforced
    locale (empty when there is none). *)
Definition setupTranslations (systemUiLanguages : list string)
    (enforcedLocale : string) (t : Translations) : Translations :=
  let uiLanguages :=
    if decide (enforcedLocale = "") then systemUiLanguages
    else enforcedLocale :: systemUiLanguages in
  tryLanguages uiLanguages t.

End Translating.

(** ** [toHtml] (l. 601-608, the Windows build) *)

Definition toHtml (t : string) : string :=
  let t1 := replaceCharBy "&"%char "&amp;" t in
  let t2 := replaceCharBy "<"%char "&lt;" t1 in
  let t3 := replaceCharBy ">"%char "&gt;" t2 in
  String.append "<html><pre>" (String.append t3 "</pre></html>").

(** The entity that stands for a character, or the character itself. *)
Definition entity (c : ascii) : string :=
  if decide (c = "&"%char) then "&amp;"
  else if decide (c = "<"%char) then "&lt;"
  else if decide (c = ">"%char) then "&gt;"
  else String c EmptyString.

Fixpoint entities (t : string) : string :=
  match t with
  | EmptyString => EmptyString
  | String c t' => String.append (entity c) (entities t')
  end.

(** ** [Application::parseOptions], [setupLogging], [slotParseMessage] *)

(** The members of [Application] that the options set, and the
    configuration directories that [ConfigFile::setConfDir] was given and
    took. *)
Record Options : Type := MkOptions {
  _helpOnly : bool;
  _versionOnly : bool;
  _showLogWindow : bool;
  _logFile : string;
  _logDir : string;
  _logExpire : Z;
  _logFlush : bool;
  _logDebug : bool;
  _debugMode : bool;
  _backgroundMode : bool;
  confDirs : list string
}.

(** A call either returns, or ends the process as [std::exit(code)] does,
    after writing a hint to the error stream. *)
Inductive Outcome (A : Type) : Type :=
  | Continues (a : A)
  | Exits (code : Z) (errorHint : string).

Arguments Continues {A} a.
Arguments Exits {A} code errorHint.

(** [Application::showHint] (l. 650-656). *)
Definition showHint {A : Type} (errorHint : string) : Outcome A :=
  Exits 1 errorHint.

(** [Application::setHelp] (l. 668-671). *)
Definition setHelp (o : Options) : Options :=
  MkOptions true (_versionOnly o) (_showLogWindow o) (_logFile o) (_logDir o)
            (_logExpire o) (_logFlush o) (_logDebug o) (_debugMode o)
            (_backgroundMode o) (confDirs o).

Definition setVersionOnly (o : Options) : Options :=
  MkOptions (_helpOnly o) true (_showLogWindow o) (_logFile o) (_logDir o)
            (_logExpire o) (_logFlush o) (_logDebug o) (_debugMode o)
            (_backgroundMode o) (confDirs o).

Definition setShowLogWindow (o : Options) : Options :=
  MkOptions (_helpOnly o) (_versionOnly o) true (_logFile o) (_logDir o)
            (_logExpire o) (_logFlush o) (_logDebug o) (_debugMode o)
            (_backgroundMode o) (confDirs o).

Definition setLogFile (value : string) (o : Options) : Options :=
  MkOptions (_helpOnly o) (_versionOnly o) (_showLogWindow o) value (_logDir o)
            (_logExpire o) (_logFlush o) (_logDebug o) (_debugMode o)
            (_backgroundMode o) (confDirs o).

Definition setLogDir (value : string) (o : Options) : Options :=
  MkOptions (_helpOnly o) (_versionOnly o) (_showLogWindow o) (_logFile o) value
            (_logExpire o) (_logFlush o) (_logDebug o) (_debugMode o)
            (_backgroundMode o) (confDirs o).

Definition setLogExpire (hours : Z) (o : Options) : Options :=
  MkOptions (_helpOnly o) (_versionOnly o) (_showLogWindow o) (_logFile o)
            (_logDir o) hours (_logFlush o) (_logDebug o) (_debugMode o)
            (_backgroundMode o) (confDirs o).

Definition setLogFlush (o : Options) : Options :=
  MkOptions (_helpOnly o) (_versionOnly o) (_showLogWindow o) (_logFile o)
            (_logDir o) (_logExpire o) true (_logDebug o) (_debugMode o)
            (_backgroundMode o) (confDirs o).

Definition setLogDebug (o : Options) : Options :=
  MkOptions (_helpOnly o) (_versionOnly o) (_showLogWindow o) (_logFile o)
            (_logDir o) (_logExpire o) (_logFlush o) true (_debugMode o)
            (_backgroundMode o) (confDirs o).

Definition setDebug (o : Options) : Options :=
  MkOptions (_helpOnly o) (_versionOnly o) (_showLogWindow o) (_logFile o)
            (_logDir o) (_logExpire o) (_logFlush o) true true
            (_backgroundMode o) (confDirs o).

Definition setBackgroundMode (o : Options) : Options :=
  MkOptions (_helpOnly o) (_versionOnly o) (_showLogWindow o) (_logFile o)
            (_logDir o) (_logExpire o) (_logFlush o) (_logDebug o) (_debugMode o)
            true (confDirs o).

Definition tookConfDir (value : string) (o : Options) : Options :=
  MkOptions (_helpOnly o) (_versionOnly o) (_showLogWindow o) (_logFile o)
            (_logDir o) (_logExpire o) (_logFlush o) (_logDebug o) (_debugMode o)
            (_backgroundMode o) (confDirs o ++ [value]).

(** The getters of l. 658-666 and 858-866. *)
Definition giveHelp (o : Options) : bool := _helpOnly o.
Definition versionOnly (o : Options) : bool := _versionOnly o.
Definition debugMode (o : Options) : bool := _debugMode o.
Definition backgroundMode (o : Options) : bool := _backgroundMode o.

Section Parsing.

(** [QString::toInt] and [ConfigFile::setConfDir], which are not part of
    [application.cpp]. *)
Variable toInt : string → Z.
Variable setConfDir : string → bool.

(** The [while] loop of l. 547-595 over what the iterator has left.  An
    option that takes a value takes the next word unless there is none or
    it starts with two dashes. *)
Fixpoint parseLoop (it : list string) (o : Options) : Outcome Options :=
  match it with
  | [] => Continues o
  | option :: it1 =>
      if bool_decide (option = "--help") || bool_decide (option = "-h") then
        Continues (setHelp o)
      else if bool_decide (option = "--logwindow") || bool_decide (option = "-l") then
        parseLoop it1 (setShowLogWindow o)
      else if bool_decide (option = "--logfile") then
        match it1 with
        | value :: it2 =>
            if String.prefix "--" value then showHint "Log file not specified"
            else parseLoop it2 (setLogFile value o)
        | [] => showHint "Log file not specified"
        end
      else if bool_decide (option = "--logdir") then
        match it1 with
        | value :: it2 =>
            if String.prefix "--" value then showHint "Log dir not specified"
            else parseLoop it2 (setLogDir value o)
        | [] => showHint "Log dir not specified"
        end
      else if bool_decide (option = "--logexpire") then
        match it1 with
        | value :: it2 =>
            if String.prefix "--" value
            then showHint "Log expiration not specified"
            else parseLoop it2 (setLogExpire (toInt value) o)
        | [] => showHint "Log expiration not specified"
        end
      else if bool_decide (option = "--logflush") then
        parseLoop it1 (setLogFlush o)
      else if bool_decide (option = "--logdebug") then
        parseLoop it1 (setLogDebug o)
      else if bool_decide (option = "--confdir") then
        match it1 with
        | value :: it2 =>
            if String.prefix "--" value
            then showHint "Path for confdir not specified"
            else if setConfDir value then parseLoop it2 (tookConfDir value o)
            else showHint "Invalid path passed to --confdir"
        | [] => showHint "Path for confdir not specified"
        end
      else if bool_decide (option = "--debug") then
        parseLoop it1 (setDebug o)
      else if bool_decide (option = "--background") then
        parseLoop it1 (setBackgroundMode o)
      else if bool_decide (option = "--version") || bool_decide (option = "-v") then
        parseLoop it1 (setVersionOnly o)
      else
        showHint ("Unrecognized option '" +:+ option +:+ "'")
  end.

(** [Application::parseOptions] (l. 539-596): the first word, the file
    name, is skipped. *)
Definition parseOptions (options : list string) (o : Options) : Outcome Options :=
  parseLoop (tail options) o.

(** The lists of words that the loop reads to their end, or up to a
    request for help. *)
Inductive wellFormed : list string → Prop :=
  | wellFormed_end : wellFormed []
  | wellFormed_help option rest :
      option = "--help" ∨ option = "-h" →
      wellFormed (option :: rest)
  | wellFormed_flag option rest :
      option ∈ ["--logwindow"; "-l"; "--logflush"; "--logdebug"; "--debug";
                "--background"; "--version"; "-v"] →
      wellFormed rest →
      wellFormed (option :: rest)
  | wellFormed_value option value rest :
      option ∈ ["--logfile"; "--logdir"; "--logexpire"] →
      String.prefix "--" value = false →
      wellFormed rest →
      wellFormed (option :: value :: rest)
  | wellFormed_confdir value rest :
      String.prefix "--" value = false →
      setConfDir value = true →
      wellFormed rest →
      wellFormed ("--confdir" :: value :: rest).

End Parsing.

(** What [setupLogging] reads of the configuration file, and what it sets
    on the logger. *)
Record ConfigFile : Type := MkConfigFile {
  logDir : string;
  logExpire : Z;
  logFlush : bool;
  logDebug : bool;
  automaticLogDir : bool
}.

Record Logger : Type := MkLogger {
  loggerLogFile : string;
  loggerLogDir : string;
  loggerLogExpire : Z;
  loggerLogFlush : bool;
  loggerLogDebug : bool;
  temporaryFolderLogDir : bool;
  logFilesEntered : nat
}.

(** The running application as [slotParseMessage] sees it. *)
Record Instance : Type := MkInstance {
  options : Options;
  logger : Logger;
  mainDialogsShown : nat
}.

Section Messages.

Variable toInt : string → Z.
Variable setConfDir : string → bool.

(** [Logger::isLoggingToFile], which is not part of [application.cpp]. *)
Variable isLoggingToFile : Logger → bool.

(** The configuration file as it is when the slot runs, and the
    milliseconds since the application started ([_startedAt.elapsed()]). *)
Variable configFile : ConfigFile.
Variable elapsed : Z.

(** [Application::setupLogging] (l. 498-514). *)
Definition setupLogging (o : Options) (l : Logger) : Logger :=
  let l1 :=
    MkLogger (_logFile o)
             (if bool_decide (_logDir o ≠ "") then _logDir o else logDir configFile)
             (if bool_decide (0 < _logExpire o) then _logExpire o
              else logExpire configFile)
             (_logFlush o || logFlush configFile)
             (_logDebug o || logDebug configFile)
             (temporaryFolderLogDir l) (logFilesEntered l) in
  let l2 :=
    if negb (isLoggingToFile l1) && automaticLogDir configFile
    then MkLogger (loggerLogFile l1) (loggerLogDir l1) (loggerLogExpire l1)
                  (loggerLogFlush l1) (loggerLogDebug l1) true
                  (logFilesEntered l1)
    else l1 in
  MkLogger (loggerLogFile l2) (loggerLogDir l2) (loggerLogExpire l2)
           (loggerLogFlush l2) (loggerLogDebug l2) (temporaryFolderLogDir l2)
           (S (logFilesEntered l2)).

(** [Application::slotParseMessage] (l. 521-537). *)
Definition slotParseMessage (msg : string) (i : Instance) : Outcome Instance :=
  if String.prefix "MSG_PARSEOPTIONS:" msg then
    let lengthOfMsgPrefix := 17%nat in
    let words := split "|"%char (mid lengthOfMsgPrefix msg) in
    match parseOptions toInt setConfDir words (options i) with
    | Continues o =>
        Continues (MkInstance o (setupLogging o (logger i)) (mainDialogsShown i))
    | Exits code errorHint => Exits code errorHint
    end
  else if String.prefix "MSG_SHOWMAINDIALOG" msg then
    if bool_decide (elapsed < 10 * 1000) then Continues i
    else Continues (MkInstance (options i) (logger i) (S (mainDialogsShown i)))
  else Continues i.

End Messages.

(** Nothing that is switched on in [o] is off in [o']. *)
Definition keepsSwitchedOn (o o' : Options) : Prop :=
  (_helpOnly o = true → _helpOnly o' = true)
  ∧ (_versionOnly o = true → _versionOnly o' = true)
  ∧ (_showLogWindow o = true → _showLogWindow o' = true)
  ∧ (_logFlush o = true → _logFlush o' = true)
  ∧ (_logDebug o = true → _logDebug o' = true)
  ∧ (_debugMode o = true → _debugMode o' = true)
  ∧ (_backgroundMode o = true → _backgroundMode o' = true).

(** ** [Application::slotownCloudWizardDone] *)

(** The application with what the slot touches besides: whether the folder
    manager schedules syncs, whether the client is launched on start-up,
    and how often the window of the tray was shown. *)
Record Desktop : Type := MkDesktop {
  application : Application;
  syncEnabled : bool;
  launchOnStartup : bool;
  windowsShown : nat
}.

Section Wizard.

Variable checkConnectivity : AccountState → AccountState.

(** [QDialog::Accepted]. *)
Variable Accepted : Z.

(** [Application::slotownCloudWizardDone] (l. 470-496), not the macOS
    build. *)
Definition slotownCloudWizardDone (res : Z) (d : Desktop) : Desktop :=
  if bool_decide (res = Accepted) then
    let started :=
      MkApp (accounts (application d)) true (checked (application d))
            (setupFlow (application d)) in
    let app := slotCheckConnection checkConnectivity started in
    let shouldSetAutoStart := bool_decide (length (accounts app) = 1%nat) in
    MkDesktop app true
              (if shouldSetAutoStart then true else launchOnStartup d)
              (S (windowsShown d))
  else
    MkDesktop (application d) true (launchOnStartup d) (windowsShown d).

End Wizard.

(** ** [Application::slotMountVirtualDrive] (the Windows build) *)

(** What the slot reads and writes of the configuration file. *)
Record VfsConfigFile : Type := MkVfsConfigFile {
  enableVirtualFileSystem : bool;
  defaultFileStreamSyncPath : string;
  defaultFileStreamMirrorPath : string;
  defaultFileStreamLetterDrive : string
}.

(** A call of [VfsWindows::initialize] followed by [mount]: the mirror
    path, the letter and the account it was given. *)
Record Mount : Type := MkMount {
  mirrorPath : string;
  letter : ascii;
  account : string
}.

(** [*mountLetter] after the [wcscpy] of l. 399: the first character of the
    string copied, which is the terminating zero when the string is empty. *)
Definition firstLetter (s : string) : ascii :=
  match s with
  | String c _ => c
  | EmptyString => zero
  end.

Section Mounting.

(** [Theme::appName], the application data location of [QStandardPaths]
    and [VfsWindows::getAvailableLogicalDrive], which are not part of
    [application.cpp]. *)
Variable appName : string.
Variable appDataLocation : string.
Variable availableLogicalDrive : string.

(** [Application::slotMountVirtualDrive] (l. 366-421) as built for
    Windows, l. 379-403. *)
Definition slotMountVirtualDrive (accountState : AccountState)
    (configFile : VfsConfigFile) (mounts : list Mount)
  : VfsConfigFile * list Mount :=
  if enableVirtualFileSystem configFile then
    let m_defaultFileStreamSyncPath := defaultFileStreamSyncPath configFile in
    let m_defaultFileStreamMirrorPath := defaultFileStreamMirrorPath configFile in
    let m_defaultFileStreamLetterDrive := defaultFileStreamLetterDrive configFile in
    let c1 :=
      if bool_decide (m_defaultFileStreamSyncPath = "") then
        MkVfsConfigFile (enableVirtualFileSystem configFile)
          (availableLogicalDrive +:+ ":/" +:+ appName)
          (defaultFileStreamMirrorPath configFile)
          (defaultFileStreamLetterDrive configFile)
      else configFile in
    let c2 :=
      if bool_decide (m_defaultFileStreamMirrorPath = "") then
        MkVfsConfigFile (enableVirtualFileSystem c1)
          (defaultFileStreamSyncPath c1)
          (appDataLocation +:+ "/cachedFiles")
          (defaultFileStreamLetterDrive c1)
      else c1 in
    let c3 :=
      if bool_decide (m_defaultFileStreamLetterDrive = "") then
        MkVfsConfigFile (enableVirtualFileSystem c2)
          (defaultFileStreamSyncPath c2)
          (defaultFileStreamMirrorPath c2)
          availableLogicalDrive
      else c2 in
    let mountLetter := firstLetter availableLogicalDrive in
    (c3, mounts ++ [MkMount m_defaultFileStreamMirrorPath mountLetter
                            (identity accountState)])
  else (configFile, mounts).

End Mounting.

(** ** Vocabulary for the further properties *)

(** [d'] has the directories of [d] and no file that [d] has not. *)
Definition shrunk (d d' : Dir) : Prop :=
  (∀ q, is_Some (lookupDir q d') ↔ is_Some (lookupDir q d))
  ∧ (∀ q, is_Some (lookupFile q d') → is_Some (lookupFile q d)).

(** Two paths the sweep leaves alone: one kept Offline, one Online and
    accessed ten seconds ago. *)
Definition nothingToEvict : World :=
  MkWorld (<[ ["docs"] := MkRecord SYNCMODE_OFFLINE SYNCMODE_DOWNLOADED_YES 300 ]>
           {[ ["notes.txt"] := MkRecord SYNCMODE_ONLINE SYNCMODE_DOWNLOADED_YES 990 ]})
          (cache (MkDir [("docs", MkDir [] [("report.pdf", plainFile)])]
                        [("notes.txt", plainFile)]))
          [].

(** A translation directory that holds the client translation for
    [de_DE] and nothing else, and an application with no language yet. *)
Definition germanOnly (file directory : string) : bool :=
  bool_decide (file = "client_de_DE").

Definition noTranslations : Translations := MkTranslations None [].

(** An application that was started without options and has not logged
    yet, with a configuration file that sets nothing; no string is taken
    for a number, every configuration directory is taken. *)
Definition zeroToInt (value : string) : Z := 0.
Definition everyConfDir (confDir : string) : bool := true.
Definition neverLoggingToFile (l : Logger) : bool := false.
Definition emptyConfigFile : ConfigFile := MkConfigFile "" 0 false false false.

Definition freshOptions : Options :=
  MkOptions false false false "" "" 0 false false false false [].

Definition freshInstance : Instance :=
  MkInstance freshOptions (MkLogger "" "" 0 false false false 0) 0.

(** A configuration file with the virtual file system enabled and the
    mirror path set only. *)
Definition mirrorPathSet : VfsConfigFile :=
  MkVfsConfigFile true "" "D:/mirror" "".

(** * Properties *)

(** ** The file system *)

Lemma Dir_nested_ind (P : Dir → Prop) :
  (∀ ds fs, Forall (λ e, P e.2) ds → P (MkDir ds fs)) → ∀ d, P d.
Proof.
  intros step. fix IH 1. intros [ds fs]. apply step.
  induction ds as [|[name sub] ds IHds]; constructor; [apply IH | exact IHds].
Qed.

Lemma removeDirs_unfold dirName ds fs :
  removeDirs dirName (MkDir ds fs) =
  let '(r, ds', ev) := removeSubdirs dirName ds in
  if r then
    let '(r', fs', ev') := removeFileEntries dirName fs in
    (r', MkDir ds' fs', ev ++ ev')
  else (false, MkDir ds' fs, ev).
Proof.
  assert (sub_eq : ∀ l,
    (fix subdirsFirst (l : list (string * Dir))
       : bool * list (string * Dir) * list Event :=
       match l with
       | [] => (true, [], [])
       | (name, sub) :: rest =>
           let '(r, sub', ev) := removeDirs (dirName ++ [name]) sub in
           if r then
             let '(r', rest', ev') := subdirsFirst rest in
             (r', (name, sub') :: rest', ev ++ ev')
           else (false, (name, sub') :: rest, ev)
       end) l = removeSubdirs dirName l).
  { induction l as [|[name sub] l IHl]; [reflexivity|].
    simpl. destruct (removeDirs (dirName ++ [name]) sub) as [[r sub'] ev].
    destruct r; [|reflexivity]. now rewrite IHl. }
  simpl. now rewrite sub_eq.
Qed.

Lemma allFiles_unfold P ds fs :
  allFiles P (MkDir ds fs) =
  forallb (λ e, allFiles P e.2) ds && forallb (λ e, P e.2) fs.
Proof.
  simpl. f_equal.
  induction ds as [|[name sub] ds IHds]; [reflexivity|].
  simpl. now rewrite IHds.
Qed.

Lemma skeleton_unfold ds fs :
  skeleton (MkDir ds fs) = MkDir (map (λ e, (e.1, skeleton e.2)) ds) [].
Proof.
  simpl. f_equal.
  induction ds as [|[name sub] ds IHds]; [reflexivity|].
  simpl. now rewrite IHds.
Qed.

Lemma countFiles_unfold ds fs :
  countFiles (MkDir ds fs) =
  (list_sum (map (λ e, countFiles e.2) ds) + length fs)%nat.
Proof.
  simpl. f_equal.
  induction ds as [|[name sub] ds IHds]; [reflexivity|].
  simpl. now rewrite IHds.
Qed.

(** [removeFileEntry] succeeds exactly on the clearable files, and then the
    file is gone. *)
Lemma removeFileEntry_result abs a :
  (removeFileEntry abs a).1.1 = clearable a.
Proof.
  unfold removeFileEntry, clearable, removable, grantWriteUser.
  destruct a as [[] [] []]; reflexivity.
Qed.

Lemma removeFileEntry_gone abs a :
  clearable a = true → (removeFileEntry abs a).1.2 = None.
Proof.
  unfold removeFileEntry, clearable, removable, grantWriteUser.
  destruct a as [[] [] []]; simpl; congruence.
Qed.

Lemma removeFileEntries_result dirName fs :
  (removeFileEntries dirName fs).1.1 = forallb (λ e, clearable e.2) fs.
Proof.
  induction fs as [|[name a] fs IHfs]; [reflexivity|].
  simpl. pose proof (removeFileEntry_result (dirName ++ [name]) a) as Hr.
  destruct (removeFileEntry (dirName ++ [name]) a) as [[r left] ev].
  simpl in Hr. rewrite <- Hr. destruct r.
  - destruct (removeFileEntries dirName fs) as [[r' fs'] ev']. exact IHfs.
  - now destruct left.
Qed.

Lemma removeFileEntries_clears dirName fs :
  forallb (λ e, clearable e.2) fs = true →
  (removeFileEntries dirName fs).1 = (true, []).
Proof.
  induction fs as [|[name a] fs IHfs]; [reflexivity|].
  simpl. intros [Ha Hfs]%andb_true_iff.
  pose proof (removeFileEntry_result (dirName ++ [name]) a) as Hr.
  destruct (removeFileEntry (dirName ++ [name]) a) as [[r left] ev].
  simpl in Hr. rewrite Ha in Hr. subst r.
  specialize (IHfs Hfs).
  destruct (removeFileEntries dirName fs) as [[r' fs'] ev']. exact IHfs.
Qed.

(** [removeDirs] returns true exactly when every file below the directory
    is clearable. *)
Lemma removeDirs_result d :
  ∀ dirName, (removeDirs dirName d).1.1 = allFiles clearable d.
Proof.
  induction d as [ds fs IH] using Dir_nested_ind. intros dirName.
  rewrite removeDirs_unfold, allFiles_unfold.
  assert (Hsub : (removeSubdirs dirName ds).1.1
                 = forallb (λ e, allFiles clearable e.2) ds).
  { induction IH as [|[name sub] ds Hsub _ IHds]; [reflexivity|].
    simpl in Hsub |- *. specialize (Hsub (dirName ++ [name])).
    destruct (removeDirs (dirName ++ [name]) sub) as [[r sub'] ev].
    simpl in Hsub. rewrite <- Hsub.
    destruct r; [|reflexivity].
    destruct (removeSubdirs dirName ds) as [[r' ds'] ev']. exact IHds. }
  destruct (removeSubdirs dirName ds) as [[r ds'] ev].
  simpl in Hsub. rewrite <- Hsub. destruct r; [|reflexivity].
  pose proof (removeFileEntries_result dirName fs) as Hfs.
  destruct (removeFileEntries dirName fs) as [[r' fs'] ev']. exact Hfs.
Qed.

(** When it returns true, what is left is the directory's skeleton: every
    file is gone and every directory is still there. *)
Lemma removeDirs_clears d :
  ∀ dirName, allFiles clearable d = true →
  (removeDirs dirName d).1 = (true, skeleton d).
Proof.
  induction d as [ds fs IH] using Dir_nested_ind. intros dirName.
  rewrite removeDirs_unfold, allFiles_unfold, skeleton_unfold.
  intros [Hds Hfs]%andb_true_iff.
  assert (Hsub : (removeSubdirs dirName ds).1
                 = (true, map (λ e, (e.1, skeleton e.2)) ds)).
  { clear Hfs. induction IH as [|[name sub] ds Hsub _ IHds]; [reflexivity|].
    simpl in Hds. apply andb_true_iff in Hds as [Hsub' Hds].
    simpl in Hsub |- *. specialize (Hsub (dirName ++ [name]) Hsub').
    destruct (removeDirs (dirName ++ [name]) sub) as [[r sub'] ev].
    simpl in Hsub. injection Hsub as -> ->.
    specialize (IHds Hds).
    destruct (removeSubdirs dirName ds) as [[r' ds'] ev'].
    simpl in IHds. injection IHds as -> ->. reflexivity. }
  destruct (removeSubdirs dirName ds) as [[r ds'] ev].
  simpl in Hsub. injection Hsub as -> ->.
  pose proof (removeFileEntries_clears dirName fs Hfs) as Hfs'.
  destruct (removeFileEntries dirName fs) as [[r' fs'] ev'].
  simpl in Hfs'. injection Hfs' as -> ->. reflexivity.
Qed.

Lemma assoc_onEntry {A : Type} name (g : A → A) l :
  assoc name (onEntry name g l) = g <$> assoc name l.
Proof.
  induction l as [|[k v] l IHl]; [reflexivity|].
  simpl. destruct (decide (k = name)) as [->|Hne]; simpl.
  - now rewrite decide_True.
  - now rewrite decide_False.
Qed.

Lemma assoc_without {A : Type} name (l : list (string * A)) :
  assoc name (without name l) = None.
Proof.
  unfold without. induction l as [|[k v] l IHl]; [reflexivity|].
  rewrite filter_cons. simpl. destruct (decide (k ≠ name)) as [Hne|_].
  - simpl. now rewrite decide_False.
  - exact IHl.
Qed.

Lemma assoc_skeleton name ds :
  assoc name (map (λ e, (e.1, skeleton e.2)) ds) = skeleton <$> assoc name ds.
Proof.
  induction ds as [|[k sub] ds IHds]; [reflexivity|].
  simpl. now destruct (decide (k = name)).
Qed.

Lemma lookupDir_alterDir f p :
  ∀ root, lookupDir p (alterDir f p root) = f <$> lookupDir p root.
Proof.
  induction p as [|name p IHp]; intros [ds fs]; [reflexivity|].
  simpl. rewrite assoc_onEntry.
  destruct (assoc name ds) as [sub|]; [apply IHp | reflexivity].
Qed.

Lemma lookupFile_unlink p : ∀ d, lookupFile p (unlink p d) = None.
Proof.
  induction p as [|name p IHp]; intros [ds fs]; [reflexivity|].
  destruct p as [|name' p].
  - simpl. apply assoc_without.
  - change (lookupFile (name :: name' :: p) (unlink (name :: name' :: p) (MkDir ds fs)))
      with (match assoc name (onEntry name (unlink (name' :: p)) ds) with
            | Some d' => lookupFile (name' :: p) d'
            | None => None
            end).
    rewrite assoc_onEntry.
    destruct (assoc name ds) as [sub|]; [apply IHp | reflexivity].
Qed.

(** The skeleton keeps every directory and holds no file. *)
Lemma lookupDir_skeleton q : ∀ d, lookupDir q (skeleton d) = skeleton <$> lookupDir q d.
Proof.
  induction q as [|name q IHq]; intros [ds fs]; [reflexivity|].
  rewrite skeleton_unfold. simpl. rewrite assoc_skeleton.
  destruct (assoc name ds) as [sub|]; [apply IHq | reflexivity].
Qed.

Lemma lookupFile_skeleton q : ∀ d, lookupFile q (skeleton d) = None.
Proof.
  induction q as [|name q IHq]; intros [ds fs]; [reflexivity|].
  rewrite skeleton_unfold. destruct q as [|name' q]; [reflexivity|].
  change (match assoc name (map (λ e, (e.1, skeleton e.2)) ds) with
          | Some d' => lookupFile (name' :: q) d'
          | None => None
          end = None).
  rewrite assoc_skeleton.
  destruct (assoc name ds) as [sub|]; [apply IHq | reflexivity].
Qed.

Lemma countFiles_skeleton d : countFiles (skeleton d) = O.
Proof.
  induction d as [ds fs IH] using Dir_nested_ind.
  rewrite skeleton_unfold, countFiles_unfold. simpl.
  rewrite Nat.add_0_r, map_map. simpl.
  induction IH as [|[name sub] ds Hsub _ IHds]; [reflexivity|].
  simpl in Hsub |- *. now rewrite Hsub, IHds.
Qed.

(** ** Runs of the sweep *)

Ltac run_unfold :=
  unfold mbind, Run_bind, mret, Run_ret, emit, deleteFileRecord,
    deleteSyncMode, msleep, QDir_exists, QFile_exists in *.

Lemma dirExists_Some p d sub : lookupDir p d = Some sub → dirExists p d = true.
Proof. intros H. unfold dirExists. rewrite H. now apply bool_decide_eq_true. Qed.

Lemma dirExists_None p d : lookupDir p d = None → dirExists p d = false.
Proof.
  intros H. unfold dirExists. rewrite H.
  apply bool_decide_eq_false. now intros [? ?].
Qed.

Lemma fileExists_Some p d a : lookupFile p d = Some a → fileExists p d = true.
Proof. intros H. unfold fileExists. rewrite H. now apply bool_decide_eq_true. Qed.

Lemma fileExists_false p d : fileExists p d = false → lookupFile p d = None.
Proof.
  unfold fileExists. intros H%bool_decide_eq_false.
  destruct (lookupFile p d); [|reflexivity]. destruct H. now eexists.
Qed.

Lemma whileFileExists_unfold fuel p w :
  whileFileExists fuel p w =
  if fileExists p (disk w) then
    match fuel with
    | O => None
    | S fuel' => (QFile_remove p ;; msleep 100 ;; whileFileExists fuel' p) w
    end
  else Some ((), w).
Proof.
  destruct fuel; simpl; unfold mbind, Run_bind, QFile_exists at 1;
    now destruct (fileExists p (disk w)).
Qed.

(** The loop leaves the journal alone, and ends only in a world where the
    file is no more. *)
Lemma whileFileExists_ends fuel p :
  ∀ w w', whileFileExists fuel p w = Some ((), w') →
  journal w' = journal w ∧ fileExists p (disk w') = false.
Proof.
  induction fuel as [|fuel IH]; intros w w'; rewrite whileFileExists_unfold;
    destruct (fileExists p (disk w)) eqn:E; try discriminate;
    try (intros [= <-]; now split).
  unfold QFile_remove. run_unfold.
  destruct (lookupFile p (disk w)) as [a|]; [destruct (removable a)|];
    intros [-> Hgone]%IH; now split.
Qed.

Lemma whileFileExists_absent fuel p w :
  fileExists p (disk w) = false → whileFileExists fuel p w = Some ((), w).
Proof. intros E. now rewrite whileFileExists_unfold, E. Qed.

(** One iteration removes a file that the operating system lets go. *)
Lemma whileFileExists_once fuel p w a :
  lookupFile p (disk w) = Some a → removable a = true →
  whileFileExists (S fuel) p w =
  Some ((), MkWorld (journal w) (unlink p (disk w))
                    ((trace w ++ [EvRemove p true]) ++ [EvMsleep 100])).
Proof.
  intros Ha Hrem. rewrite whileFileExists_unfold, (fileExists_Some _ _ _ Ha).
  unfold QFile_remove. run_unfold. rewrite Ha, Hrem.
  apply whileFileExists_absent. simpl.
  unfold fileExists. rewrite lookupFile_unlink.
  apply bool_decide_eq_false. now intros [? ?].
Qed.

(** A file that the operating system does not let go keeps the loop going
    for as many iterations as it is granted. *)
Lemma whileFileExists_stuck p a fuel :
  ∀ w, lookupFile p (disk w) = Some a → removable a = false →
  whileFileExists fuel p w = None.
Proof.
  induction fuel as [|fuel IH]; intros w Ha Hrem;
    rewrite whileFileExists_unfold, (fileExists_Some _ _ _ Ha); [reflexivity|].
  unfold QFile_remove. run_unfold. rewrite Ha, Hrem.
  now apply IH.
Qed.

(** The bound does not matter beyond one iteration: the loop ends within
    one iteration or not at all. *)
Lemma whileFileExists_fuel fuel p w :
  whileFileExists (S fuel) p w = whileFileExists 1 p w.
Proof.
  destruct (lookupFile p (disk w)) as [a|] eqn:Ha.
  - destruct (removable a) eqn:Hrem.
    + now rewrite !(whileFileExists_once _ _ _ _ Ha Hrem).
    + now rewrite !(whileFileExists_stuck _ _ _ _ Ha Hrem).
  - assert (E : fileExists p (disk w) = false).
    { unfold fileExists. rewrite Ha. apply bool_decide_eq_false. now intros [? ?]. }
    now rewrite !(whileFileExists_absent _ _ _ E).
Qed.

Section SweepFacts.

Variable relative_prefix : path.
Variable now : Z.

Lemma sweepItem_eq fuel item w :
  sweepItem relative_prefix now fuel item w =
  if selected now (journal w) item then evict relative_prefix fuel item w
  else Some ((), w).
Proof.
  unfold sweepItem, selected, secondsSinceLastAccess, getSyncMode,
    getSyncModeDownload. run_unfold.
  now destruct (idleOnline _ _).
Qed.

Lemma evict_dir fuel item w d :
  lookupDir (relative_prefix ++ item) (disk w) = Some d →
  evict relative_prefix fuel item w =
  let '(result, d', ev) := removeDirs (relative_prefix ++ item) d in
  Some ((), MkWorld (delete item (journal w))
                    (alterDir (λ _, d') (relative_prefix ++ item) (disk w))
                    ((trace w ++ ev) ++ [EvDeleteFileRecord item true])).
Proof.
  intros Hd. unfold evict, removeDirsAt. run_unfold.
  rewrite (dirExists_Some _ _ _ Hd), Hd.
  now destruct (removeDirs (relative_prefix ++ item) d) as [[result d'] ev].
Qed.

Lemma evict_file fuel item w :
  lookupDir (relative_prefix ++ item) (disk w) = None →
  evict relative_prefix fuel item w =
  match whileFileExists fuel (relative_prefix ++ item) w with
  | Some (_, w1) =>
      Some ((), MkWorld (delete item (journal w1)) (disk w1)
                        (trace w1 ++ [EvDeleteFileRecord item false]))
  | None => None
  end.
Proof.
  intros Hd. unfold evict. run_unfold. rewrite (dirExists_None _ _ Hd).
  now destruct (whileFileExists fuel (relative_prefix ++ item) w) as [[[] w1]|].
Qed.

(** An iteration that ends has deleted the item's record if the item was
    selected, and has left the journal as it was if not. *)
Lemma sweepItem_journal fuel item w w' :
  sweepItem relative_prefix now fuel item w = Some ((), w') →
  journal w' =
  if selected now (journal w) item then delete item (journal w) else journal w.
Proof.
  rewrite sweepItem_eq. destruct (selected now (journal w) item).
  - destruct (lookupDir (relative_prefix ++ item) (disk w)) as [d|] eqn:Hd.
    + rewrite (evict_dir _ _ _ _ Hd).
      destruct (removeDirs (relative_prefix ++ item) d) as [[result d'] ev].
      now intros [= <-].
    + rewrite (evict_file _ _ _ Hd).
      destruct (whileFileExists fuel (relative_prefix ++ item) w)
        as [[[] w1]|] eqn:Hloop; [|discriminate].
      apply whileFileExists_ends in Hloop as [Hj _].
      intros [= <-]. simpl. now rewrite Hj.
  - now intros [= <-].
Qed.

Lemma selected_lookup j j' p :
  j' !! p = j !! p → selected now j' p = selected now j p.
Proof. unfold selected. now intros ->. Qed.

Lemma selected_record j p :
  selected now j p = true →
  ∃ r, j !! p = Some r ∧ syncMode r = SYNCMODE_ONLINE ∧ 65 < now - lastAccessAt r.
Proof.
  unfold selected, idleOnline. destruct (j !! p) as [r|]; [|discriminate].
  simpl. destruct (syncMode r) eqn:Hm; [|discriminate].
  intros H%bool_decide_eq_true. now exists r.
Qed.

Lemma selected_of_record j p r :
  j !! p = Some r →
  selected now j p
  = bool_decide (syncMode r = SYNCMODE_ONLINE ∧ 65 < now - lastAccessAt r).
Proof.
  intros Hr. unfold selected, idleOnline. rewrite Hr. simpl.
  destruct (syncMode r).
  - apply bool_decide_ext. tauto.
  - symmetry. apply bool_decide_eq_false. now intros [? _].
Qed.

(** What a sweep over [l] that ends has made of the journal. *)
Lemma foreach_journal fuel l :
  ∀ w w', foreach (sweepItem relative_prefix now fuel) l w = Some ((), w') →
  ∀ p, journal w' !! p =
       if bool_decide (p ∈ l) && selected now (journal w) p then None
       else journal w !! p.
Proof.
  induction l as [|item l IH]; intros w w'.
  - intros [= <-] p. now rewrite bool_decide_eq_false_2 by apply not_elem_of_nil.
  - simpl. run_unfold.
    destruct (sweepItem relative_prefix now fuel item w) as [[[] w1]|] eqn:Hitem;
      [|discriminate].
    intros Hrest p. rewrite (IH _ _ Hrest p).
    apply sweepItem_journal in Hitem.
    destruct (decide (p = item)) as [->|Hne].
    + rewrite (bool_decide_eq_true_2 (item ∈ item :: l)) by apply list_elem_of_here.
      simpl. destruct (selected now (journal w) item) eqn:Hsel.
      * assert (Hgone : journal w1 !! item = None)
          by (rewrite Hitem; apply lookup_delete_eq).
        unfold selected at 1. rewrite Hgone. simpl.
        now rewrite andb_false_r.
      * rewrite Hitem, Hsel. now rewrite andb_false_r.
    + assert (Hsame : journal w1 !! p = journal w !! p).
      { rewrite Hitem. destruct (selected now (journal w) item);
          [now apply lookup_delete_ne | reflexivity]. }
      rewrite (selected_lookup _ _ _ Hsame), Hsame.
      replace (bool_decide (p ∈ item :: l)) with (bool_decide (p ∈ l));
        [reflexivity|].
      apply bool_decide_ext. rewrite elem_of_cons. tauto.
Qed.

(** A sweep over paths none of which is selected changes nothing. *)
Lemma foreach_none_selected fuel l :
  ∀ w, (∀ p, p ∈ l → selected now (journal w) p = false) →
  foreach (sweepItem relative_prefix now fuel) l w = Some ((), w).
Proof.
  induction l as [|item l IH]; intros w Hl; [reflexivity|].
  simpl. run_unfold. rewrite sweepItem_eq, Hl by apply list_elem_of_here.
  apply IH. intros p Hp. apply Hl. now apply list_elem_of_further.
Qed.

Lemma slotDeleteOnlineFiles_eq fuel w :
  slotDeleteOnlineFiles relative_prefix now fuel w =
  foreach (sweepItem relative_prefix now fuel) (map_to_list (journal w)).*1 w.
Proof.
  unfold slotDeleteOnlineFiles, getSyncModePaths. run_unfold.
  destruct ((map_to_list (journal w)).*1) as [|item l]; [reflexivity|].
  now rewrite bool_decide_eq_true_2.
Qed.

Lemma elem_of_paths (j : gmap path SyncPathRecord) p :
  p ∈ (map_to_list j).*1 ↔ is_Some (j !! p).
Proof.
  rewrite list_elem_of_fmap. split.
  - intros [[q r] [-> Hin%elem_of_map_to_list]]. now exists r.
  - intros [r Hr]. exists (p, r). split; [reflexivity|].
    now apply elem_of_map_to_list.
Qed.

(** The journal after a sweep that ends: the selected paths have lost their
    record, every other record is as before. *)
Lemma slotDeleteOnlineFiles_journal fuel w w' :
  slotDeleteOnlineFiles relative_prefix now fuel w = Some ((), w') →
  ∀ p, journal w' !! p =
       if selected now (journal w) p then None else journal w !! p.
Proof.
  rewrite slotDeleteOnlineFiles_eq. intros Hrun p.
  rewrite (foreach_journal _ _ _ _ Hrun p).
  destruct (selected now (journal w) p) eqn:Hsel; [|now rewrite andb_false_r].
  apply selected_record in Hsel as (r & Hr & _).
  rewrite bool_decide_eq_true_2; [reflexivity|].
  apply elem_of_paths. now exists r.
Qed.

Lemma foreach_ext {A : Type} (f g : A → Run unit) l :
  (∀ x w, f x w = g x w) → ∀ w, foreach f l w = foreach g l w.
Proof.
  intros Hfg. induction l as [|x l IH]; intros w; [reflexivity|].
  simpl. run_unfold. rewrite Hfg. destruct (g x w) as [[[] w1]|]; [apply IH|reflexivity].
Qed.

(** Whether a sweep ends, and in which world, does not depend on the bound
    once it allows one iteration to each loop. *)
Lemma sweepItem_fuel fuel item w :
  sweepItem relative_prefix now (S fuel) item w
  = sweepItem relative_prefix now 1 item w.
Proof.
  rewrite !sweepItem_eq. destruct (selected now (journal w) item); [|reflexivity].
  destruct (lookupDir (relative_prefix ++ item) (disk w)) as [d|] eqn:Hd.
  - now rewrite !(evict_dir _ _ _ _ Hd).
  - now rewrite !(evict_file _ _ _ Hd), whileFileExists_fuel.
Qed.

Lemma whileFileExists_mono p w r fuel :
  whileFileExists 0 p w = Some r → whileFileExists fuel p w = Some r.
Proof.
  rewrite whileFileExists_unfold.
  destruct (fileExists p (disk w)) eqn:E; [discriminate|].
  intros <-. now apply whileFileExists_absent.
Qed.

Lemma sweepItem_mono item w r fuel :
  sweepItem relative_prefix now 0 item w = Some r →
  sweepItem relative_prefix now fuel item w = Some r.
Proof.
  rewrite !sweepItem_eq. destruct (selected now (journal w) item); [|done].
  destruct (lookupDir (relative_prefix ++ item) (disk w)) as [d|] eqn:Hd.
  - now rewrite !(evict_dir _ _ _ _ Hd).
  - rewrite !(evict_file _ _ _ Hd).
    destruct (whileFileExists 0 (relative_prefix ++ item) w) as [r0|] eqn:Hloop;
      [|discriminate].
    now rewrite (whileFileExists_mono _ _ _ fuel Hloop).
Qed.

(** A sweep over [l] that ends under some bound ends in the same world
    when each loop is granted one iteration. *)
Lemma foreach_any_fuel fuel l :
  ∀ w r, foreach (sweepItem relative_prefix now fuel) l w = Some r →
  foreach (sweepItem relative_prefix now 1) l w = Some r.
Proof.
  destruct fuel as [|fuel].
  - induction l as [|item l IH]; intros w r; [done|].
    simpl. run_unfold.
    destruct (sweepItem relative_prefix now 0 item w) as [[[] w1]|] eqn:Hitem;
      [|discriminate].
    rewrite (sweepItem_mono _ _ _ 1%nat Hitem). apply IH.
  - intros w r <-. symmetry. apply foreach_ext.
    intros item w0. apply sweepItem_fuel.
Qed.

Lemma foreach_app {A : Type} (f : A → Run unit) l1 l2 :
  ∀ w, foreach f (l1 ++ l2) w =
       match foreach f l1 w with
       | Some (_, w0) => foreach f l2 w0
       | None => None
       end.
Proof.
  induction l1 as [|x l1 IH]; intros w; [reflexivity|].
  simpl. run_unfold. destruct (f x w) as [[[] w1]|]; [apply IH|reflexivity].
Qed.

Lemma slotDeleteOnlineFiles_fuel fuel w :
  slotDeleteOnlineFiles relative_prefix now (S fuel) w
  = slotDeleteOnlineFiles relative_prefix now 1 w.
Proof.
  rewrite !slotDeleteOnlineFiles_eq. apply foreach_ext.
  intros item w0. apply sweepItem_fuel.
Qed.

(** Hence a sweep ends under some bound exactly when it ends with one
    iteration granted to each loop, which can be computed. *)
Lemma slotDeleteOnlineFiles_ends w r :
  (∃ fuel, slotDeleteOnlineFiles relative_prefix now fuel w = Some r)
  ↔ slotDeleteOnlineFiles relative_prefix now 1 w = Some r.
Proof.
  split; [|intros Hrun; now exists 1%nat].
  intros [fuel Hrun]. rewrite slotDeleteOnlineFiles_eq in Hrun |- *.
  now apply foreach_any_fuel in Hrun.
Qed.

End SweepFacts.

(** A failed [removeDirs] leaves at least the file it failed on. *)
Lemma removeFileEntry_kept abs a :
  (removeFileEntry abs a).1.1 = false → is_Some (removeFileEntry abs a).1.2.
Proof.
  unfold removeFileEntry, removable, grantWriteUser.
  destruct a as [[] [] []]; simpl; intros H; try discriminate; now eexists.
Qed.

Lemma removeFileEntries_failed dirName fs :
  (removeFileEntries dirName fs).1.1 = false →
  (0 < length (removeFileEntries dirName fs).1.2)%nat.
Proof.
  induction fs as [|[name a] fs IHfs]; [discriminate|].
  simpl. pose proof (removeFileEntry_kept (dirName ++ [name]) a) as Hkept.
  destruct (removeFileEntry (dirName ++ [name]) a) as [[r left] ev].
  simpl in Hkept. destruct r.
  - destruct (removeFileEntries dirName fs) as [[r' fs'] ev']. exact IHfs.
  - destruct (Hkept eq_refl) as [a' ->]. simpl. lia.
Qed.

Lemma removeDirs_failed d :
  ∀ dirName, (removeDirs dirName d).1.1 = false →
  (0 < countFiles (removeDirs dirName d).1.2)%nat.
Proof.
  induction d as [ds fs IH] using Dir_nested_ind. intros dirName.
  rewrite removeDirs_unfold.
  assert (Hsub : (removeSubdirs dirName ds).1.1 = false →
                 (0 < list_sum (map (λ e, countFiles e.2)
                                    (removeSubdirs dirName ds).1.2))%nat).
  { induction IH as [|[name sub] ds Hsub _ IHds]; [discriminate|].
    simpl in Hsub |- *. specialize (Hsub (dirName ++ [name])).
    destruct (removeDirs (dirName ++ [name]) sub) as [[r sub'] ev].
    simpl in Hsub. destruct r.
    - destruct (removeSubdirs dirName ds) as [[r' ds'] ev'].
      simpl in IHds |- *. intros Hr. specialize (IHds Hr). lia.
    - simpl. intros _. specialize (Hsub eq_refl). lia. }
  destruct (removeSubdirs dirName ds) as [[r ds'] ev]. simpl in Hsub.
  destruct r.
  - pose proof (removeFileEntries_failed dirName fs) as Hfs.
    destruct (removeFileEntries dirName fs) as [[r' fs'] ev'].
    cbn [fst snd] in Hfs |- *. intros Hr. specialize (Hfs Hr).
    rewrite countFiles_unfold. lia.
  - cbn [fst snd]. intros _. specialize (Hsub eq_refl).
    rewrite countFiles_unfold. lia.
Qed.

Lemma allFiles_impl (P Q : FileAttr → bool) d :
  (∀ a, P a = true → Q a = true) → allFiles P d = true → allFiles Q d = true.
Proof.
  intros HPQ. induction d as [ds fs IH] using Dir_nested_ind.
  rewrite !allFiles_unfold. intros [Hds Hfs]%andb_true_iff.
  apply andb_true_iff. split.
  - clear Hfs. induction IH as [|[name sub] ds Hsub _ IHds]; [reflexivity|].
    simpl in Hsub, Hds |- *. apply andb_true_iff in Hds as [Hsub' Hds].
    apply andb_true_iff. split; [now apply Hsub | now apply IHds].
  - rewrite forallb_forall in Hfs |- *. intros e He. apply HPQ. now apply Hfs.
Qed.

Section SweepOfOneItem.

Variable relative_prefix : path.
Variable now : Z.

(** The iteration for a selected item that is a directory: whatever
    [removeDirs] returns, the item's records are deleted. *)
Lemma sweepItem_directory fuel item w d :
  selected now (journal w) item = true →
  lookupDir (relative_prefix ++ item) (disk w) = Some d →
  sweepItem relative_prefix now fuel item w =
  Some ((), MkWorld
    (delete item (journal w))
    (alterDir (λ _, (removeDirs (relative_prefix ++ item) d).1.2)
              (relative_prefix ++ item) (disk w))
    ((trace w ++ (removeDirs (relative_prefix ++ item) d).2)
     ++ [EvDeleteFileRecord item true])).
Proof.
  intros Hsel Hd. rewrite sweepItem_eq, Hsel, (evict_dir _ _ _ _ _ Hd).
  now destruct (removeDirs (relative_prefix ++ item) d) as [[result d'] ev].
Qed.

(** When every file below the directory is clearable, the directory's
    skeleton is what the iteration leaves at the item's place. *)
Lemma sweepItem_directory_cleared fuel item w d :
  selected now (journal w) item = true →
  lookupDir (relative_prefix ++ item) (disk w) = Some d →
  allFiles clearable d = true →
  ∃ w1, sweepItem relative_prefix now fuel item w = Some ((), w1)
        ∧ lookupDir (relative_prefix ++ item) (disk w1) = Some (skeleton d)
        ∧ journal w1 = delete item (journal w).
Proof.
  intros Hsel Hd Hclear. eexists.
  split; [exact (sweepItem_directory _ _ _ _ Hsel Hd)|].
  simpl. rewrite lookupDir_alterDir, Hd. simpl.
  now rewrite (removeDirs_clears d _ Hclear).
Qed.

(** The iteration for a selected item that is no directory. *)
Lemma sweepItem_file fuel item w :
  selected now (journal w) item = true →
  lookupDir (relative_prefix ++ item) (disk w) = None →
  sweepItem relative_prefix now fuel item w =
  match whileFileExists fuel (relative_prefix ++ item) w with
  | Some (_, w1) =>
      Some ((), MkWorld (delete item (journal w1)) (disk w1)
                        (trace w1 ++ [EvDeleteFileRecord item false]))
  | None => None
  end.
Proof. intros Hsel Hd. now rewrite sweepItem_eq, Hsel, (evict_file _ _ _ _ Hd). Qed.

(** What holds of C1: the journal keeps every Offline record as it is, and
    the iteration for an Offline path does nothing at all. *)
Lemma offline_record_kept fuel w w' p r :
  journal w !! p = Some r → syncMode r = SYNCMODE_OFFLINE →
  sweepItem relative_prefix now fuel p w = Some ((), w)
  ∧ (slotDeleteOnlineFiles relative_prefix now fuel w = Some ((), w') →
     journal w' !! p = Some r).
Proof.
  intros Hr Hmode.
  assert (Hsel : selected now (journal w) p = false).
  { rewrite (selected_of_record _ _ _ _ Hr).
    apply bool_decide_eq_false. rewrite Hmode. now intros [? _]. }
  split; [now rewrite sweepItem_eq, Hsel|].
  intros Hrun.
  now rewrite (slotDeleteOnlineFiles_journal _ _ _ _ _ Hrun p), Hsel.
Qed.

(** The sweep does not get past a selected file that cannot be removed. *)
Lemma foreach_stuck item rest w a fuel :
  selected now (journal w) item = true →
  lookupDir (relative_prefix ++ item) (disk w) = None →
  lookupFile (relative_prefix ++ item) (disk w) = Some a →
  removable a = false →
  foreach (sweepItem relative_prefix now fuel) (item :: rest) w = None.
Proof.
  intros Hsel Hd Ha Hrem. simpl. run_unfold.
  rewrite (sweepItem_file _ _ _ Hsel Hd).
  now rewrite (whileFileExists_stuck _ _ _ _ Ha Hrem).
Qed.

End SweepOfOneItem.

(** ** The claims about the eviction sweep *)

Section SweepClaims.

Variable relative_prefix : path.
Variable now : Z.

(** C2, as amended.  An iteration of the sweep takes the eviction branch
    for a path exactly when the path's record is Online and its last access
    is more than 65 seconds old; the download status of the record plays no
    part.  Accordingly, a sweep that ends has deleted the record of a path
    exactly when the record was Online and that old. *)
Theorem selected_iff_online_and_idle fuel item w r :
  journal w !! item = Some r →
  sweepItem relative_prefix now fuel item w
  = (if bool_decide (syncMode r = SYNCMODE_ONLINE ∧ 65 < now - lastAccessAt r)
     then evict relative_prefix fuel item w
     else Some ((), w))
  ∧ ∀ w', slotDeleteOnlineFiles relative_prefix now fuel w = Some ((), w') →
          (journal w' !! item = None
           ↔ syncMode r = SYNCMODE_ONLINE ∧ 65 < now - lastAccessAt r).
Proof.
  intros Hr. split.
  - now rewrite sweepItem_eq, (selected_of_record _ _ _ _ Hr).
  - intros w' Hrun.
    rewrite (slotDeleteOnlineFiles_journal _ _ _ _ _ Hrun item).
    rewrite (selected_of_record _ _ _ _ Hr), Hr.
    case_bool_decide as Hsel; split; try done.
Qed.

(** C3, as amended.  The eviction of a path deletes the path's record: the
    iteration for a selected file that the operating system lets go ends
    with the file removed and the record deleted, and the iteration for a
    selected directory ends with the record deleted.  After a sweep that
    ends, a path that was Online and idle for more than 65 seconds has no
    record any more, so the journal knows neither a sync mode nor a
    download status (None or other) for it; the record of every path that
    was not selected is as before. *)
Theorem evicted_record_is_deleted fuel w p r :
  journal w !! p = Some r →
  syncMode r = SYNCMODE_ONLINE →
  65 < now - lastAccessAt r →
  (∀ a, lookupDir (relative_prefix ++ p) (disk w) = None →
        lookupFile (relative_prefix ++ p) (disk w) = Some a →
        removable a = true →
        ∃ w1, sweepItem relative_prefix now (S fuel) p w = Some ((), w1)
              ∧ fileExists (relative_prefix ++ p) (disk w1) = false
              ∧ journal w1 = delete p (journal w))
  ∧ (∀ d, lookupDir (relative_prefix ++ p) (disk w) = Some d →
          ∃ w1, sweepItem relative_prefix now fuel p w = Some ((), w1)
                ∧ journal w1 = delete p (journal w))
  ∧ (∀ w', slotDeleteOnlineFiles relative_prefix now fuel w = Some ((), w') →
           journal w' !! p = None
           ∧ getSyncMode p w' = Some (None, w')
           ∧ getSyncModeDownload p w' = Some (None, w')
           ∧ ∀ q, selected now (journal w) q = false →
                  journal w' !! q = journal w !! q).
Proof.
  intros Hr Hmode Hidle.
  assert (Hsel : selected now (journal w) p = true).
  { rewrite (selected_of_record _ _ _ _ Hr). now apply bool_decide_eq_true_2. }
  split; [|split].
  - intros a Hd Ha Hrem. eexists. split.
    + rewrite (sweepItem_file _ _ _ _ _ Hsel Hd).
      now rewrite (whileFileExists_once _ _ _ _ Ha Hrem).
    + simpl. split; [|reflexivity].
      unfold fileExists. rewrite lookupFile_unlink.
      apply bool_decide_eq_false. now intros [? ?].
  - intros d Hd. eexists.
    split; [exact (sweepItem_directory _ _ _ _ _ _ Hsel Hd)|reflexivity].
  - intros w' Hrun.
    pose proof (slotDeleteOnlineFiles_journal _ _ _ _ _ Hrun) as Hj.
    assert (Hp : journal w' !! p = None) by now rewrite Hj, Hsel.
    unfold getSyncMode, getSyncModeDownload. rewrite Hp.
    repeat split; try reflexivity.
    intros q Hq. now rewrite Hj, Hq.
Qed.

(** C8, as amended.  A sweep that ends leaves a world on which a second
    sweep changes nothing (journal, file system and recorded calls are
    those the first sweep left) when it reads the same ages, and more
    generally when no Online record that the first sweep kept is idle for
    more than 65 seconds at the time [now'] of the second sweep.  Such a
    record is what makes the second sweep differ: it is deleted.  The paths
    the first sweep evicted have no record and are not visited again,
    whenever the second sweep runs. *)
Theorem second_sweep_changes_nothing now' fuel fuel' w w1 :
  slotDeleteOnlineFiles relative_prefix now fuel w = Some ((), w1) →
  slotDeleteOnlineFiles relative_prefix now fuel' w1 = Some ((), w1)
  ∧ (∀ p, selected now (journal w) p = true →
          journal w1 !! p = None ∧ p ∉ (map_to_list (journal w1)).*1)
  ∧ ((∀ p r, journal w1 !! p = Some r → syncMode r = SYNCMODE_ONLINE →
             now' - lastAccessAt r ≤ 65) →
     slotDeleteOnlineFiles relative_prefix now' fuel' w1 = Some ((), w1))
  ∧ (∀ w2 p r,
       slotDeleteOnlineFiles relative_prefix now' fuel' w1 = Some ((), w2) →
       journal w1 !! p = Some r → syncMode r = SYNCMODE_ONLINE →
       65 < now' - lastAccessAt r →
       journal w2 !! p = None ∧ w2 ≠ w1).
Proof.
  intros Hrun.
  pose proof (slotDeleteOnlineFiles_journal _ _ _ _ _ Hrun) as Hj.
  split; [|split; [|split]].
  - rewrite slotDeleteOnlineFiles_eq.
    apply foreach_none_selected. intros p [r Hr]%elem_of_paths.
    pose proof (Hj p) as Hp.
    destruct (selected now (journal w) p) eqn:Hsel; [congruence|].
    now rewrite (selected_lookup _ _ _ _ Hp).
  - intros p Hsel.
    assert (Hp : journal w1 !! p = None) by now rewrite Hj, Hsel.
    split; [exact Hp|]. rewrite elem_of_paths, Hp. now intros [? ?].
  - intros Hrecent. rewrite slotDeleteOnlineFiles_eq.
    apply foreach_none_selected. intros p [r Hr]%elem_of_paths.
    rewrite (selected_of_record _ _ _ _ Hr). apply bool_decide_eq_false_2.
    intros [Hmode Hidle]. specialize (Hrecent p r Hr Hmode). lia.
  - intros w2 p r Hlater Hr Hmode Hidle.
    assert (Hp : journal w2 !! p = None).
    { rewrite (slotDeleteOnlineFiles_journal _ _ _ _ _ Hlater p).
      rewrite (selected_of_record _ _ _ _ Hr).
      now rewrite bool_decide_eq_true_2 by (split; [exact Hmode | exact Hidle]). }
    split; [exact Hp|]. intros ->. congruence.
Qed.

(** C4, as amended.  When [removeDirs] fails on the directory of a selected
    path (some file below it cannot be removed, the permission retry
    included), the sweep is not aborted: the iteration ends with files
    still below the directory, the path's record is deleted all the same,
    and the sweep goes on with the paths that follow. *)
Theorem failed_directory_removal_goes_on fuel item rest w d :
  selected now (journal w) item = true →
  lookupDir (relative_prefix ++ item) (disk w) = Some d →
  (removeDirs (relative_prefix ++ item) d).1.1 = false →
  ∃ w1 d1, sweepItem relative_prefix now fuel item w = Some ((), w1)
        ∧ lookupDir (relative_prefix ++ item) (disk w1) = Some d1
        ∧ (0 < countFiles d1)%nat
        ∧ journal w1 = delete item (journal w)
        ∧ journal w1 !! item = None
        ∧ foreach (sweepItem relative_prefix now fuel) (item :: rest) w
          = foreach (sweepItem relative_prefix now fuel) rest w1.
Proof.
  intros Hsel Hd Hfail. eexists. eexists.
  split; [exact (sweepItem_directory _ _ _ _ _ _ Hsel Hd)|].
  simpl. split; [now rewrite lookupDir_alterDir, Hd|].
  split; [now apply removeDirs_failed|].
  split; [reflexivity|]. split; [apply lookup_delete_eq|].
  run_unfold. now rewrite (sweepItem_directory _ _ _ _ _ _ Hsel Hd).
Qed.

(** C5, as amended.  The permission retry is part of [removeDirs] alone, so
    it is made for the files below a directory that is evicted.  When the
    removal of such a file fails and its [WriteUser] bit is missing,
    [setPermissions] is called; when that call succeeds the removal is tried
    once more and no further time, when it fails there is no retry; the
    file is gone exactly when the call succeeds and no other process holds
    the file, and is left with the bit set when only the call succeeds.  When the bit is there, a failed removal is followed by
    nothing.  A selected directory is left without a file exactly when
    every file below it is not in use and has the bit or can be given it,
    and its record is deleted in every case (no download status is left
    for it). *)
Theorem permission_retry_below_directories fuel item w d :
  (∀ abs a, removable a = false → writeUser a = false →
     (removeFileEntry abs a).2
     = EvRemove abs false :: EvSetPermissions abs (ownedByUser a)
       :: (if ownedByUser a then [EvRemove abs (negb (inUse a))] else [])
     ∧ (removeFileEntry abs a).1.1 = ownedByUser a && negb (inUse a)
     ∧ (removeFileEntry abs a).1.2
       = (if ownedByUser a && negb (inUse a) then None
          else Some (if ownedByUser a then grantWriteUser a else a)))
  ∧ (∀ abs a, removable a = false → writeUser a = true →
     removeFileEntry abs a = (false, Some a, [EvRemove abs false]))
  ∧ (selected now (journal w) item = true →
     lookupDir (relative_prefix ++ item) (disk w) = Some d →
     ∃ w1 d1, sweepItem relative_prefix now fuel item w = Some ((), w1)
           ∧ lookupDir (relative_prefix ++ item) (disk w1) = Some d1
           ∧ (countFiles d1 = O ↔ allFiles clearable d = true)
           ∧ (allFiles clearable d = true → d1 = skeleton d)
           ∧ journal w1 !! item = None).
Proof.
  split; [|split].
  - intros abs [[] [] []]; simpl; try discriminate; intros _ _; repeat split.
  - intros abs [[] [] []]; simpl; try discriminate; reflexivity.
  - intros Hsel Hd. eexists. eexists.
    split; [exact (sweepItem_directory _ _ _ _ _ _ Hsel Hd)|]. simpl.
    split; [now rewrite lookupDir_alterDir, Hd|].
    split; [|split; [|apply lookup_delete_eq]].
    + split.
      * intros Hnone.
        destruct (allFiles clearable d) eqn:Hclear; [reflexivity|].
        pose proof (removeDirs_failed d (relative_prefix ++ item)) as Hleft.
        rewrite removeDirs_result in Hleft. specialize (Hleft Hclear). lia.
      * intros Hclear. rewrite (removeDirs_clears _ _ Hclear). simpl.
        apply countFiles_skeleton.
    + intros Hclear. now rewrite (removeDirs_clears _ _ Hclear).
Qed.

(** C10.  The loop over a path that is no directory removes and sleeps 100
    ms for as long as the file exists, and ends only in a world where the
    file is no more.  When the sweep reaches a selected file that the
    operating system does not let go, it does not end, however many
    iterations are granted, so none of the paths behind it in the snapshot
    is visited. *)
Theorem unremovable_file_stalls_the_sweep p :
  (∀ fuel w, fileExists p (disk w) = true →
     whileFileExists (S fuel) p w
     = (QFile_remove p ;; msleep 100 ;; whileFileExists fuel p) w)
  ∧ (∀ fuel w w', whileFileExists fuel p w = Some ((), w') →
       fileExists p (disk w') = false)
  ∧ (∀ item rest w a,
       p = relative_prefix ++ item →
       selected now (journal w) item = true →
       lookupDir p (disk w) = None →
       lookupFile p (disk w) = Some a →
       removable a = false →
       diverges (λ fuel, foreach (sweepItem relative_prefix now fuel) (item :: rest)) w)
  ∧ (∀ before item rest w w0 a,
       p = relative_prefix ++ item →
       (map_to_list (journal w)).*1 = before ++ item :: rest →
       foreach (sweepItem relative_prefix now 1) before w = Some ((), w0) →
       selected now (journal w0) item = true →
       lookupDir p (disk w0) = None →
       lookupFile p (disk w0) = Some a →
       removable a = false →
       diverges (slotDeleteOnlineFiles relative_prefix now) w).
Proof.
  split; [|split; [|split]].
  - intros fuel w Hex. now rewrite whileFileExists_unfold, Hex.
  - intros fuel w w' Hrun. now apply whileFileExists_ends in Hrun.
  - intros item rest w a -> Hsel Hd Ha Hrem fuel.
    now apply (foreach_stuck _ _ _ _ _ a).
  - intros before item rest w w0 a -> Hsnap Hbefore Hsel Hd Ha Hrem fuel.
    rewrite slotDeleteOnlineFiles_eq, Hsnap, foreach_app.
    destruct (foreach (sweepItem relative_prefix now fuel) before w)
      as [[[] w1]|] eqn:Hfuel; [|reflexivity].
    apply foreach_any_fuel in Hfuel. rewrite Hbefore in Hfuel.
    injection Hfuel as <-. now apply (foreach_stuck _ _ _ _ _ a).
Qed.

End SweepClaims.

(** ** The sweep on the scenarios *)

(** C1, where the code departs from it.  The sweep at second 1000 evicts
    the idle Online directory [docs]; [removeDirs] does not ask the journal
    about what is below it and removes [docs/report.pdf], a file whose own
    record is Offline and was accessed ten seconds before.  The record
    itself is left as it was. *)
Theorem offline_file_below_online_directory_is_removed :
  slotDeleteOnlineFiles cachePrefix 1000 1 offlineInsideOnline
  = Some ((), afterOfflineInsideOnline)
  ∧ getSyncMode reportPdf offlineInsideOnline
    = Some (Some SYNCMODE_OFFLINE, offlineInsideOnline)
  ∧ fileExists (cachePrefix ++ reportPdf) (disk offlineInsideOnline) = true
  ∧ fileExists (cachePrefix ++ reportPdf) (disk afterOfflineInsideOnline) = false
  ∧ journal afterOfflineInsideOnline !! reportPdf
    = journal offlineInsideOnline !! reportPdf.
Proof. repeat split; vm_compute; reflexivity. Qed.

(** C2 fails as stated: a path whose download status is None (nothing
    downloaded, nothing cached) is selected all the same once it is Online
    and idle; the sweep deletes its records. *)
Lemma path_without_download_is_selected :
  getSyncModeDownload reportPdf nothingDownloaded
  = Some (Some SYNCMODE_DOWNLOADED_NONE, nothingDownloaded)
  ∧ selected 1000 (journal nothingDownloaded) reportPdf = true
  ∧ sweepItem cachePrefix 1000 1 reportPdf nothingDownloaded
    = evict cachePrefix 1 reportPdf nothingDownloaded
  ∧ slotDeleteOnlineFiles cachePrefix 1000 1 nothingDownloaded
    = Some ((), afterNothingDownloaded).
Proof. repeat split; vm_compute; reflexivity. Qed.

(** The theorem of C2 on scenario A. *)
Lemma selected_iff_online_and_idle_scenarioA :
  sweepItem cachePrefix 1000 1 reportPdf scenarioA
  = (if bool_decide (SYNCMODE_ONLINE = SYNCMODE_ONLINE ∧ 65 < 1000 - 300)
     then evict cachePrefix 1 reportPdf scenarioA
     else Some ((), scenarioA))
  ∧ ∀ w', slotDeleteOnlineFiles cachePrefix 1000 1 scenarioA = Some ((), w') →
          (journal w' !! reportPdf = None
           ↔ SYNCMODE_ONLINE = SYNCMODE_ONLINE ∧ 65 < 1000 - 300).
Proof.
  apply (selected_iff_online_and_idle cachePrefix 1000 1 reportPdf scenarioA
           (MkRecord SYNCMODE_ONLINE SYNCMODE_DOWNLOADED_YES 300)).
  vm_compute. reflexivity.
Defined.

(** C3 fails as stated: after the sweep of scenario A the cached file is
    gone and so is the record; the journal has no download status None and
    no sync mode Online for the path. *)
Lemma scenarioA_record_is_gone :
  slotDeleteOnlineFiles cachePrefix 1000 1 scenarioA = Some ((), afterScenarioA)
  ∧ fileExists (cachePrefix ++ reportPdf) (disk afterScenarioA) = false
  ∧ journal afterScenarioA !! reportPdf = None
  ∧ getSyncModeDownload reportPdf afterScenarioA = Some (None, afterScenarioA)
  ∧ getSyncMode reportPdf afterScenarioA = Some (None, afterScenarioA).
Proof. repeat split; vm_compute; reflexivity. Qed.

(** The theorem of C3 on scenario A. *)
Lemma evicted_record_is_deleted_scenarioA :
  (∃ w1, sweepItem cachePrefix 1000 2 reportPdf scenarioA = Some ((), w1)
         ∧ fileExists (cachePrefix ++ reportPdf) (disk w1) = false
         ∧ journal w1 = delete reportPdf (journal scenarioA))
  ∧ journal afterScenarioA !! reportPdf = None
  ∧ getSyncMode reportPdf afterScenarioA = Some (None, afterScenarioA)
  ∧ getSyncModeDownload reportPdf afterScenarioA = Some (None, afterScenarioA).
Proof.
  destruct (evicted_record_is_deleted cachePrefix 1000 1 scenarioA reportPdf
              (MkRecord SYNCMODE_ONLINE SYNCMODE_DOWNLOADED_YES 300))
    as (Hfile & _ & Hsweep).
  - vm_compute. reflexivity.
  - reflexivity.
  - simpl. lia.
  - split.
    + apply (Hfile plainFile); vm_compute; reflexivity.
    + destruct (Hsweep afterScenarioA) as (Hgone & Hmode & Hdown & _).
      * vm_compute. reflexivity.
      * now repeat split.
Defined.

(** C4 fails as stated: the read-only file below [docs] is held by another
    process, so [removeDirs] fails on it after the permission retry; the
    file is still there after the sweep, and the record of [docs] is
    deleted.  And when the held file is itself the selected path, the sweep
    does not go on to any other path: it does not end. *)
Lemma failed_removal_still_deletes_the_record :
  slotDeleteOnlineFiles cachePrefix 1000 1 heldInsideDirectory
  = Some ((), afterHeldInsideDirectory)
  ∧ (removeDirs (cachePrefix ++ ["docs"])
       (MkDir [] [("report.pdf", heldFile)])).1.1 = false
  ∧ fileExists (cachePrefix ++ reportPdf) (disk afterHeldInsideDirectory) = true
  ∧ is_Some (journal heldInsideDirectory !! ["docs"])
  ∧ journal afterHeldInsideDirectory !! ["docs"] = None
  ∧ diverges (slotDeleteOnlineFiles cachePrefix 1000) heldPath.
Proof.
  repeat split; try (vm_compute; reflexivity).
  - vm_compute. now eexists.
  - intros fuel. rewrite slotDeleteOnlineFiles_eq.
    replace ((map_to_list (journal heldPath)).*1) with [reportPdf]
      by (vm_compute; reflexivity).
    apply (foreach_stuck _ _ _ _ _ heldFile); vm_compute; reflexivity.
Qed.

(** The theorem of C4 on the directory with the held file. *)
Lemma failed_directory_removal_goes_on_heldInsideDirectory :
  ∃ w1 d1,
    sweepItem cachePrefix 1000 1 ["docs"] heldInsideDirectory = Some ((), w1)
    ∧ lookupDir (cachePrefix ++ ["docs"]) (disk w1) = Some d1
    ∧ (0 < countFiles d1)%nat
    ∧ journal w1 = delete ["docs"] (journal heldInsideDirectory)
    ∧ journal w1 !! ["docs"] = None
    ∧ foreach (sweepItem cachePrefix 1000 1) [["docs"]; ["notes.txt"]]
        heldInsideDirectory
      = foreach (sweepItem cachePrefix 1000 1) [["notes.txt"]] w1.
Proof.
  apply (failed_directory_removal_goes_on cachePrefix 1000 1 ["docs"]
           [["notes.txt"]] heldInsideDirectory
           (MkDir [] [("report.pdf", heldFile)]));
    vm_compute; reflexivity.
Defined.

(** C8 fails as stated: the first sweep, at second 1000, evicts [docs] and
    keeps [notes.txt], accessed ten seconds before; on the world it leaves,
    a sweep at the same second changes nothing, and a sweep sixty seconds
    later evicts [notes.txt]. *)
Lemma later_sweep_evicts_what_the_first_kept :
  slotDeleteOnlineFiles cachePrefix 1000 1 recentBesideIdle
  = Some ((), afterRecentBesideIdle)
  ∧ slotDeleteOnlineFiles cachePrefix 1000 1 afterRecentBesideIdle
    = Some ((), afterRecentBesideIdle)
  ∧ slotDeleteOnlineFiles cachePrefix 1060 1 afterRecentBesideIdle
    = Some ((), laterRecentBesideIdle)
  ∧ journal afterRecentBesideIdle !! ["notes.txt"]
    = Some (MkRecord SYNCMODE_ONLINE SYNCMODE_DOWNLOADED_YES 990)
  ∧ journal laterRecentBesideIdle !! ["notes.txt"] = None
  ∧ fileExists (cachePrefix ++ ["notes.txt"]) (disk afterRecentBesideIdle) = true
  ∧ fileExists (cachePrefix ++ ["notes.txt"]) (disk laterRecentBesideIdle) = false.
Proof. repeat split; vm_compute; reflexivity. Qed.

(** The theorem of C8 on the world with the Offline file: the second sweep
    returns the world the first one left, at the same second and sixty
    seconds later. *)
Lemma second_sweep_changes_nothing_offlineInsideOnline :
  slotDeleteOnlineFiles cachePrefix 1000 0 afterOfflineInsideOnline
  = Some ((), afterOfflineInsideOnline)
  ∧ slotDeleteOnlineFiles cachePrefix 1060 0 afterOfflineInsideOnline
    = Some ((), afterOfflineInsideOnline).
Proof.
  assert (Hrun : slotDeleteOnlineFiles cachePrefix 1000 1 offlineInsideOnline
                 = Some ((), afterOfflineInsideOnline)) by (vm_compute; reflexivity).
  destruct (second_sweep_changes_nothing cachePrefix 1000 1060 1 0
              offlineInsideOnline afterOfflineInsideOnline Hrun)
    as (Hsame & _ & Hlater & _).
  split; [exact Hsame|]. apply Hlater.
  intros p r Hr Hmode. unfold afterOfflineInsideOnline in Hr. simpl in Hr.
  apply lookup_singleton_Some in Hr as [_ <-]. discriminate Hmode.
Defined.

(** C5 fails as stated: for a path that is itself a read-only file there
    is no permission retry, the loop removes in vain and the sweep does not
    end; and where the retry is made, below a directory, the path's record
    is deleted and no download status None is left for it.  Below a
    directory, too, there is no retry for a file whose permissions the user
    may not change. *)
Lemma read_only_file_path_gets_no_retry :
  diverges (slotDeleteOnlineFiles cachePrefix 1000) readOnlyPath
  ∧ slotDeleteOnlineFiles cachePrefix 1000 1 readOnlyInsideDirectory
    = Some ((), afterReadOnlyInsideDirectory)
  ∧ getSyncModeDownload ["docs"] afterReadOnlyInsideDirectory
    = Some (None, afterReadOnlyInsideDirectory)
  ∧ removeFileEntry (cachePrefix ++ reportPdf) (MkAttr false false false)
    = (false, Some (MkAttr false false false),
       [EvRemove (cachePrefix ++ reportPdf) false;
        EvSetPermissions (cachePrefix ++ reportPdf) false]).
Proof.
  split; [|split; [|split]; vm_compute; reflexivity].
  intros fuel. rewrite slotDeleteOnlineFiles_eq.
  replace ((map_to_list (journal readOnlyPath)).*1) with [reportPdf]
    by (vm_compute; reflexivity).
  apply (foreach_stuck _ _ _ _ _ readOnlyFile); vm_compute; reflexivity.
Qed.

(** The theorem of C5 on the directory with the read-only file, and on the
    read-only file itself. *)
Lemma permission_retry_below_directories_readOnlyInsideDirectory :
  (∃ w1,
     sweepItem cachePrefix 1000 1 ["docs"] readOnlyInsideDirectory = Some ((), w1)
     ∧ lookupDir (cachePrefix ++ ["docs"]) (disk w1)
       = Some (skeleton (MkDir [] [("report.pdf", readOnlyFile)]))
     ∧ countFiles (skeleton (MkDir [] [("report.pdf", readOnlyFile)])) = O
     ∧ journal w1 !! ["docs"] = None)
  ∧ (removeFileEntry (cachePrefix ++ reportPdf) readOnlyFile).2
    = [EvRemove (cachePrefix ++ reportPdf) false;
       EvSetPermissions (cachePrefix ++ reportPdf) true;
       EvRemove (cachePrefix ++ reportPdf) true].
Proof.
  destruct (permission_retry_below_directories cachePrefix 1000 1 ["docs"]
              readOnlyInsideDirectory (MkDir [] [("report.pdf", readOnlyFile)]))
    as (Hretry & _ & Hdir).
  split.
  - destruct Hdir as (w1 & d1 & Hrun & Hdisk & _ & Hclear & Hrecord);
      try (vm_compute; reflexivity).
    exists w1. split; [exact Hrun|].
    split; [rewrite Hdisk; f_equal; apply Hclear; vm_compute; reflexivity|].
    split; [apply countFiles_skeleton | exact Hrecord].
  - exact (proj1 (Hretry (cachePrefix ++ reportPdf) readOnlyFile eq_refl eq_refl)).
Defined.

(** C9 fails as stated: after the eviction of [docs] its files are gone at
    every depth, and [docs] and [docs/old] are still directories of the
    cache. *)
Lemma directories_survive_eviction :
  slotDeleteOnlineFiles cachePrefix 1000 1 directoryTree
  = Some ((), afterDirectoryTree)
  ∧ dirExists (cachePrefix ++ ["docs"]) (disk afterDirectoryTree) = true
  ∧ dirExists (cachePrefix ++ ["docs"; "old"]) (disk afterDirectoryTree) = true
  ∧ fileExists (cachePrefix ++ reportPdf) (disk afterDirectoryTree) = false
  ∧ fileExists (cachePrefix ++ ["docs"; "old"; "draft.txt"])
      (disk afterDirectoryTree) = false.
Proof. repeat split; vm_compute; reflexivity. Qed.

(** The theorem of C10 on the three paths: [notes.txt] is evicted, the
    read-only [docs/report.pdf] stalls the sweep, [music] is not reached. *)
Lemma unremovable_file_stalls_the_sweep_readOnlyBehindNotes :
  diverges (slotDeleteOnlineFiles cachePrefix 1000) readOnlyBehindNotes.
Proof.
  eapply (proj2 (proj2 (proj2 (unremovable_file_stalls_the_sweep cachePrefix 1000
                                 (cachePrefix ++ reportPdf))))
            [["notes.txt"]] reportPdf [["music"]] readOnlyBehindNotes _
            readOnlyFile);
    vm_compute; reflexivity.
Defined.

(** ** The claims about the connectivity check *)

Lemma isChecked_iff s : isChecked s ↔ s = Connecting ∨ s = Connected.
Proof.
  unfold isChecked. destruct s; simpl; split; intros H;
    try (destruct H as [H|H]; discriminate); try done; auto.
Qed.

Lemma isChecked_settled s :
  s = SignedOut ∨ s = ConfigurationError ∨ s = AskingCredentials →
  isChecked s = false.
Proof. now intros [->|[->| ->]]. Qed.

Lemma slotCheckConnection_accounts checkConnectivity app :
  accounts (slotCheckConnection checkConnectivity app)
  = checkAccount checkConnectivity <$> accounts app.
Proof. unfold slotCheckConnection. now case_bool_decide. Qed.

Lemma timeout_settled checkConnectivity app i a :
  accounts app !! i = Some a →
  state a = SignedOut ∨ state a = ConfigurationError ∨ state a = AskingCredentials →
  accounts (timeout checkConnectivity app) !! i = Some a.
Proof.
  intros Ha Hsettled. unfold timeout.
  destruct (checkConnectionTimerActive app); [|exact Ha].
  rewrite slotCheckConnection_accounts, list_lookup_fmap, Ha. simpl.
  unfold checkAccount. now rewrite (isChecked_settled _ Hsettled).
Qed.

(** C6.  The connectivity check calls [checkConnectivity] on the accounts
    that are Connecting or Connected, and on no other.  Whatever a call
    makes of an account, an account that is SignedOut, in
    ConfigurationError or AskingCredentials is the same after the check,
    and after any number of timeouts of the timer; and an account that the
    check has brought to Connected was Connecting before it. *)
Theorem settled_accounts_are_not_checked checkConnectivity app :
  checked (slotCheckConnection checkConnectivity app)
  = checked app
    ++ (identity <$> filter (λ a, state a = Connecting ∨ state a = Connected)
                            (accounts app))
  ∧ (∀ i a,
       accounts app !! i = Some a →
       state a = SignedOut ∨ state a = ConfigurationError
       ∨ state a = AskingCredentials →
       accounts (slotCheckConnection checkConnectivity app) !! i = Some a)
  ∧ (∀ i a a',
       accounts app !! i = Some a →
       accounts (slotCheckConnection checkConnectivity app) !! i = Some a' →
       state a ≠ Connected → state a' = Connected →
       state a = Connecting)
  ∧ (∀ app' i a,
       timeouts app app' →
       accounts app !! i = Some a →
       state a = SignedOut ∨ state a = ConfigurationError
       ∨ state a = AskingCredentials →
       accounts app' !! i = Some a).
Proof.
  split; [|split; [|split]].
  - assert (Hfilter :
      filter (λ a, isChecked (state a)) (accounts app)
      = filter (λ a, state a = Connecting ∨ state a = Connected) (accounts app)).
    { apply list_filter_iff. intros a. apply isChecked_iff. }
    unfold slotCheckConnection. case_bool_decide; simpl; now rewrite Hfilter.
  - intros i a Ha Hsettled.
    rewrite slotCheckConnection_accounts, list_lookup_fmap, Ha. simpl.
    unfold checkAccount. now rewrite (isChecked_settled _ Hsettled).
  - intros i a a' Ha.
    rewrite slotCheckConnection_accounts, list_lookup_fmap, Ha. simpl.
    unfold checkAccount. destruct (isChecked (state a)) eqn:Hchecked.
    + intros _ Hne _. apply Is_true_true, isChecked_iff in Hchecked.
      now destruct Hchecked.
    + intros [= <-] Hne Hconn. now destruct Hne.
  - intros app' i a Hrun. induction Hrun as [app|f app app' _ IH]; [done|].
    intros Ha Hsettled. apply IH; [|exact Hsettled].
    now apply timeout_settled.
Qed.

(** C7.  With no account registered, the connectivity check asks the setup
    flow for the account wizard and stops its timer, after which no timeout
    changes anything.  The slot run on the removal of an account makes the
    same request when no account is left, as it is after the removal of the
    only account. *)
Theorem no_account_opens_the_wizard checkConnectivity app :
  accounts app = [] →
  setupFlow (slotCheckConnection checkConnectivity app)
  = setupFlow app ++ [NewAccountWizard]
  ∧ checkConnectionTimerActive (slotCheckConnection checkConnectivity app) = false
  ∧ (∀ app', timeouts (slotCheckConnection checkConnectivity app) app' →
             app' = slotCheckConnection checkConnectivity app)
  ∧ (∀ a, setupFlow (slotAccountStateRemoved a app)
          = setupFlow app ++ [NewAccountWizard])
  ∧ (∀ a active called asked,
       setupFlow (removeAccount a (MkApp [a] active called asked))
       = asked ++ [NewAccountWizard]).
Proof.
  intros Hnone.
  assert (Hstopped :
    checkConnectionTimerActive (slotCheckConnection checkConnectivity app) = false).
  { unfold slotCheckConnection. now rewrite Hnone. }
  split; [unfold slotCheckConnection; now rewrite Hnone|].
  split; [exact Hstopped|]. split; [|split].
  - intros app' Hrun. revert Hstopped.
    induction Hrun as [app0|f app0 app' Hrun IH]; [done|].
    intros Hstopped. unfold timeout in Hrun, IH. rewrite Hstopped in Hrun, IH.
    now apply IH.
  - intros a. unfold slotAccountStateRemoved. now rewrite Hnone.
  - intros a active called asked. unfold removeAccount, slotAccountStateRemoved.
    simpl. rewrite filter_cons, decide_False by (intros H; now apply H).
    reflexivity.
Qed.

(** The theorem of C6 on two accounts: the signed-out one is neither
    checked nor changed, the connecting one is checked. *)
Lemma settled_accounts_are_not_checked_twoAccounts :
  checked (slotCheckConnection probeSucceeds twoAccounts) = ["bob"]
  ∧ accounts (slotCheckConnection probeSucceeds twoAccounts) !! 0%nat
    = Some (MkAccount "alice" SignedOut 0)
  ∧ accounts (slotCheckConnection probeSucceeds twoAccounts) !! 1%nat
    = Some (MkAccount "bob" Connected 32).
Proof.
  pose proof (settled_accounts_are_not_checked probeSucceeds twoAccounts)
    as (Hchecked & Hsettled & _).
  split; [rewrite Hchecked; reflexivity|].
  split; [|reflexivity].
  apply Hsettled; [reflexivity | now left].
Defined.

(** The theorem of C7 with no account, and on the removal of the only
    account. *)
Lemma no_account_opens_the_wizard_noAccounts :
  setupFlow (slotCheckConnection probeSucceeds noAccounts) = [NewAccountWizard]
  ∧ checkConnectionTimerActive (slotCheckConnection probeSucceeds noAccounts) = false
  ∧ timeout probeSucceeds (slotCheckConnection probeSucceeds noAccounts)
    = slotCheckConnection probeSucceeds noAccounts
  ∧ setupFlow (removeAccount (MkAccount "alice" Connected 0) oneAccount)
    = [NewAccountWizard].
Proof.
  destruct (no_account_opens_the_wizard probeSucceeds noAccounts eq_refl)
    as (Hasked & Hstopped & Hquiet & _ & Hlast).
  split; [exact Hasked|]. split; [exact Hstopped|]. split.
  - symmetry. apply Hquiet. apply (timeouts_more probeSucceeds). apply timeouts_none.
  - exact (Hlast (MkAccount "alice" Connected 0) true [] []).
Defined.

(** * Further properties of the code *)

(** ** What [removeDirs] and the sweep do to the cache *)

Lemma assoc_onEntry_ne {A : Type} name n (g : A → A) l :
  n ≠ name → assoc n (onEntry name g l) = assoc n l.
Proof.
  intros Hne. induction l as [|[k v] l IHl]; [reflexivity|].
  simpl. destruct (decide (k = name)) as [->|Hk]; simpl.
  - rewrite !decide_False by congruence. exact IHl.
  - destruct (decide (k = n)); [reflexivity | exact IHl].
Qed.

Lemma shrunk_refl d : shrunk d d.
Proof. split; intros q; tauto. Qed.

Lemma shrunk_trans d1 d2 d3 : shrunk d1 d2 → shrunk d2 d3 → shrunk d1 d3.
Proof.
  intros [Hd12 Hf12] [Hd23 Hf23]. split; intros q.
  - now rewrite Hd23, Hd12.
  - intros H. now apply Hf12, Hf23.
Qed.

(** The relation, entry by entry. *)
Lemma shrunk_MkDir ds ds' fs fs' :
  (∀ n, match assoc n ds, assoc n ds' with
        | Some x, Some x' => shrunk x x'
        | None, None => True
        | _, _ => False
        end) →
  (∀ n, is_Some (assoc n fs') → is_Some (assoc n fs)) →
  shrunk (MkDir ds fs) (MkDir ds' fs').
Proof.
  intros Hds Hfs. split; intros q.
  - destruct q as [|n q]; [simpl; split; eauto|].
    simpl. specialize (Hds n).
    destruct (assoc n ds) as [x|], (assoc n ds') as [x'|]; try done.
    apply Hds.
  - destruct q as [|n q]; [simpl; tauto|].
    destruct q as [|n' q]; [apply Hfs|].
    change (is_Some (match assoc n ds' with
                     | Some d' => lookupFile (n' :: q) d'
                     | None => None
                     end) →
            is_Some (match assoc n ds with
                     | Some d' => lookupFile (n' :: q) d'
                     | None => None
                     end)).
    specialize (Hds n).
    destruct (assoc n ds) as [x|], (assoc n ds') as [x'|]; try done.
    apply Hds.
Qed.

Lemma shrunk_onEntry name g ds fs fs' :
  (∀ x, shrunk x (g x)) →
  (∀ n, is_Some (assoc n fs') → is_Some (assoc n fs)) →
  shrunk (MkDir ds fs) (MkDir (onEntry name g ds) fs').
Proof.
  intros Hg Hfs. apply shrunk_MkDir; [|exact Hfs]. intros n.
  destruct (decide (n = name)) as [->|Hne].
  - rewrite assoc_onEntry. destruct (assoc name ds) as [x|]; simpl; [apply Hg|done].
  - rewrite (assoc_onEntry_ne _ _ _ _ Hne).
    destruct (assoc n ds) as [x|]; [apply shrunk_refl|done].
Qed.

Lemma assoc_without_Some {A : Type} name n (l : list (string * A)) :
  is_Some (assoc n (without name l)) → is_Some (assoc n l).
Proof.
  unfold without. induction l as [|[k v] l IHl]; [done|].
  rewrite filter_cons. simpl. destruct (decide (k ≠ name)) as [Hne|_]; simpl.
  - destruct (decide (k = n)); [eauto | exact IHl].
  - intros H. destruct (decide (k = n)); [eauto | now apply IHl].
Qed.

Lemma shrunk_unlink p : ∀ d, shrunk d (unlink p d).
Proof.
  induction p as [|name p IHp]; intros [ds fs]; [apply shrunk_refl|].
  destruct p as [|name' p].
  - simpl. apply shrunk_MkDir.
    + intros n. destruct (assoc n ds); [apply shrunk_refl|done].
    + intros n. apply assoc_without_Some.
  - change (unlink (name :: name' :: p) (MkDir ds fs))
      with (MkDir (onEntry name (unlink (name' :: p)) ds) fs).
    apply shrunk_onEntry; [exact IHp | tauto].
Qed.

(** Replacing the directory at [p] by a shrunk one shrinks the whole. *)
Lemma shrunk_alterDir d' p :
  ∀ root d, lookupDir p root = Some d → shrunk d d' →
  shrunk root (alterDir (λ _, d') p root).
Proof.
  induction p as [|name p IHp]; intros [ds fs] d.
  - simpl. now intros [= <-].
  - simpl. destruct (assoc name ds) as [sub|] eqn:Hsub; [|discriminate].
    intros Hd Hshrunk. apply shrunk_MkDir; [|tauto]. intros n.
    destruct (decide (n = name)) as [->|Hne].
    + rewrite assoc_onEntry, Hsub. simpl. now apply (IHp sub d).
    + rewrite (assoc_onEntry_ne _ _ _ _ Hne).
      destruct (assoc n ds); [apply shrunk_refl|done].
Qed.

Lemma removeFileEntries_names dirName fs n :
  is_Some (assoc n (removeFileEntries dirName fs).1.2) → is_Some (assoc n fs).
Proof.
  induction fs as [|[name a] fs IHfs]; [done|].
  simpl. destruct (removeFileEntry (dirName ++ [name]) a) as [[r left] ev].
  destruct r.
  - destruct (removeFileEntries dirName fs) as [[r' fs'] ev']. simpl in *.
    intros H. destruct (decide (name = n)); [eauto | now apply IHfs].
  - destruct left as [a'|]; simpl.
    + destruct (decide (name = n)); [eauto | done].
    + intros H. destruct (decide (name = n)); [eauto | done].
Qed.

Lemma removeDirs_shrunk d : ∀ dirName, shrunk d (removeDirs dirName d).1.2.
Proof.
  induction d as [ds fs IH] using Dir_nested_ind. intros dirName.
  rewrite removeDirs_unfold.
  assert (Hsub : ∀ n,
    match assoc n ds, assoc n (removeSubdirs dirName ds).1.2 with
    | Some x, Some x' => shrunk x x'
    | None, None => True
    | _, _ => False
    end).
  { intros n. induction IH as [|[name sub] ds Hsub _ IHds]; [done|].
    simpl in Hsub |- *. specialize (Hsub (dirName ++ [name])).
    destruct (removeDirs (dirName ++ [name]) sub) as [[r sub'] ev].
    simpl in Hsub. destruct r.
    - destruct (removeSubdirs dirName ds) as [[r' ds'] ev']. simpl in *.
      destruct (decide (name = n)); [exact Hsub | exact IHds].
    - simpl. destruct (decide (name = n)); [exact Hsub|].
      destruct (assoc n ds); [apply shrunk_refl|done]. }
  destruct (removeSubdirs dirName ds) as [[r ds'] ev]. simpl in Hsub.
  destruct r.
  - pose proof (removeFileEntries_names dirName fs) as Hfs.
    destruct (removeFileEntries dirName fs) as [[r' fs'] ev'].
    simpl in *. now apply shrunk_MkDir.
  - simpl. apply shrunk_MkDir; [exact Hsub | tauto].
Qed.

Lemma shrunk_exists d d' :
  shrunk d d' →
  (∀ q, dirExists q d' = dirExists q d)
  ∧ (∀ q, fileExists q d' = true → fileExists q d = true).
Proof.
  intros [Hdirs Hfiles]. split; intros q.
  - unfold dirExists. apply bool_decide_ext, Hdirs.
  - unfold fileExists. rewrite !bool_decide_eq_true. apply Hfiles.
Qed.

Lemma whileFileExists_shrunk fuel p :
  ∀ w w', whileFileExists fuel p w = Some ((), w') → shrunk (disk w) (disk w').
Proof.
  induction fuel as [|fuel IH]; intros w w'; rewrite whileFileExists_unfold;
    destruct (fileExists p (disk w)); try discriminate;
    try (intros [= <-]; apply shrunk_refl).
  unfold QFile_remove. run_unfold.
  destruct (lookupFile p (disk w)) as [a|]; [destruct (removable a)|];
    intros Hrest%IH; simpl in Hrest; [|exact Hrest..].
  exact (shrunk_trans _ _ _ (shrunk_unlink p (disk w)) Hrest).
Qed.

Section SweepKeepsTheCache.

Variable relative_prefix : path.
Variable now : Z.

Lemma sweepItem_shrunk fuel item w w' :
  sweepItem relative_prefix now fuel item w = Some ((), w') →
  shrunk (disk w) (disk w').
Proof.
  rewrite sweepItem_eq. destruct (selected now (journal w) item);
    [|intros [= <-]; apply shrunk_refl].
  destruct (lookupDir (relative_prefix ++ item) (disk w)) as [d|] eqn:Hd.
  - rewrite (evict_dir _ _ _ _ _ Hd).
    pose proof (removeDirs_shrunk d (relative_prefix ++ item)) as Hshrunk.
    destruct (removeDirs (relative_prefix ++ item) d) as [[result d'] ev].
    intros [= <-]. simpl. now apply (shrunk_alterDir _ _ _ d).
  - rewrite (evict_file _ _ _ _ Hd).
    destruct (whileFileExists fuel (relative_prefix ++ item) w)
      as [[[] w1]|] eqn:Hloop; [|discriminate].
    intros [= <-]. simpl. now apply whileFileExists_shrunk in Hloop.
Qed.

Lemma foreach_shrunk fuel l :
  ∀ w w', foreach (sweepItem relative_prefix now fuel) l w = Some ((), w') →
  shrunk (disk w) (disk w').
Proof.
  induction l as [|item l IH]; intros w w'; [intros [= <-]; apply shrunk_refl|].
  simpl. run_unfold.
  destruct (sweepItem relative_prefix now fuel item w) as [[[] w1]|] eqn:Hitem;
    [|discriminate].
  intros Hrest. apply (shrunk_trans _ (disk w1)).
  - exact (sweepItem_shrunk _ _ _ _ Hitem).
  - now apply IH.
Qed.

(** X4.  A sweep that ends has removed no directory and created none, and
    every file of the cache afterwards was a file of the cache before: the
    sweep only takes files away. *)
Theorem sweep_only_takes_files_away fuel w w' :
  slotDeleteOnlineFiles relative_prefix now fuel w = Some ((), w') →
  (∀ q, dirExists q (disk w') = dirExists q (disk w))
  ∧ (∀ q, fileExists q (disk w') = true → fileExists q (disk w) = true).
Proof.
  rewrite slotDeleteOnlineFiles_eq. intros Hrun.
  now apply shrunk_exists, (foreach_shrunk fuel _ _ _ Hrun).
Qed.

(** X5.  A sweep that ends adds no record and changes none: every record
    of the journal afterwards is a record of the journal before, and the
    record of a path that is Offline, or was accessed within the last 65
    seconds, is still there unchanged. *)
Theorem sweep_only_deletes_idle_online_records fuel w w' :
  slotDeleteOnlineFiles relative_prefix now fuel w = Some ((), w') →
  journal w' ⊆ journal w
  ∧ ∀ p r, journal w !! p = Some r →
           syncMode r = SYNCMODE_OFFLINE ∨ now - lastAccessAt r ≤ 65 →
           journal w' !! p = Some r.
Proof.
  intros Hrun.
  pose proof (slotDeleteOnlineFiles_journal _ _ _ _ _ Hrun) as Hj. split.
  - apply map_subseteq_spec. intros p r. rewrite Hj.
    now destruct (selected now (journal w) p).
  - intros p r Hr Hkept. rewrite Hj, (selected_of_record _ _ _ _ Hr), Hr.
    rewrite bool_decide_eq_false_2; [reflexivity|].
    intros [Hmode Hidle]. destruct Hkept as [Hoff|Hrecent]; [congruence|lia].
Qed.

(** X6.  When no record is both Online and idle for more than 65 seconds
    (in particular when the journal is empty), the sweep ends under any
    bound and leaves the world as it was: the journal and the file system
    are unchanged, and no removal, change of permissions, sleep or deletion
    of a record is made. *)
Theorem sweep_without_idle_online_path_is_a_no_op fuel w :
  (∀ p r, journal w !! p = Some r →
          syncMode r = SYNCMODE_OFFLINE ∨ now - lastAccessAt r ≤ 65) →
  slotDeleteOnlineFiles relative_prefix now fuel w = Some ((), w).
Proof.
  intros Hnone. rewrite slotDeleteOnlineFiles_eq.
  apply foreach_none_selected. intros p [r Hr]%elem_of_paths.
  rewrite (selected_of_record _ _ _ _ Hr). apply bool_decide_eq_false_2.
  intros [Hmode Hidle]. destruct (Hnone p r Hr) as [Hoff|Hrecent]; [congruence|lia].
Qed.

End SweepKeepsTheCache.

(** ** The eviction of a directory *)

Section EvictionOfDirectories.

Variable relative_prefix : path.
Variable now : Z.

(** C9, as amended.  When a selected path is a directory, the sweep
    removes files and no directory: the directory itself and every
    directory below it are still there afterwards, and no file is there
    that was not there before.  Every file below it, at any depth, is
    removed when all of them can be removed; otherwise at least one file is
    left.  When the path is a file that the operating system lets go, one
    iteration of the loop removes it. *)
Theorem eviction_removes_files_not_directories fuel item w :
  selected now (journal w) item = true →
  (∀ d, lookupDir (relative_prefix ++ item) (disk w) = Some d →
        ∃ w1 d1,
          sweepItem relative_prefix now fuel item w = Some ((), w1)
          ∧ lookupDir (relative_prefix ++ item) (disk w1) = Some d1
          ∧ (∀ q, is_Some (lookupDir q d1) ↔ is_Some (lookupDir q d))
          ∧ (∀ q, is_Some (lookupFile q d1) → is_Some (lookupFile q d))
          ∧ (allFiles clearable d = true →
             d1 = skeleton d ∧ ∀ q, lookupFile q d1 = None)
          ∧ (allFiles clearable d = false → (0 < countFiles d1)%nat))
  ∧ (∀ a, lookupDir (relative_prefix ++ item) (disk w) = None →
          lookupFile (relative_prefix ++ item) (disk w) = Some a →
          removable a = true →
          ∃ w1, sweepItem relative_prefix now (S fuel) item w = Some ((), w1)
                ∧ disk w1 = unlink (relative_prefix ++ item) (disk w)
                ∧ fileExists (relative_prefix ++ item) (disk w1) = false
                ∧ trace w1 = trace w ++ [EvRemove (relative_prefix ++ item) true;
                                         EvMsleep 100;
                                         EvDeleteFileRecord item false]).
Proof.
  intros Hsel. split.
  - intros d Hd. eexists. eexists.
    split; [exact (sweepItem_directory _ _ _ _ _ _ Hsel Hd)|]. simpl.
    split; [now rewrite lookupDir_alterDir, Hd|].
    destruct (removeDirs_shrunk d (relative_prefix ++ item)) as [Hdirs Hfiles].
    split; [exact Hdirs|]. split; [exact Hfiles|]. split.
    + intros Hclear. rewrite (removeDirs_clears _ _ Hclear). simpl.
      split; [reflexivity|]. intros q. apply lookupFile_skeleton.
    + intros Hleft. apply removeDirs_failed. now rewrite removeDirs_result.
  - intros a Hd Ha Hrem. eexists. split.
    + rewrite (sweepItem_file _ _ _ _ _ Hsel Hd).
      now rewrite (whileFileExists_once _ _ _ _ Ha Hrem).
    + simpl. repeat split.
      * unfold fileExists. rewrite lookupFile_unlink.
        apply bool_decide_eq_false. now intros [? ?].
      * now rewrite <- !app_assoc.
Qed.

End EvictionOfDirectories.

(** The theorem of C9 on the directory tree, on the directory with the
    file that is held, and on the file of scenario A. *)
Lemma eviction_removes_files_not_directories_scenarios :
  (∃ w1,
     sweepItem cachePrefix 1000 1 ["docs"] directoryTree = Some ((), w1)
     ∧ lookupDir (cachePrefix ++ ["docs"]) (disk w1)
       = Some (MkDir [("old", MkDir [] [])] []))
  ∧ (∃ w1 d1,
       sweepItem cachePrefix 1000 1 ["docs"] heldInsideDirectory = Some ((), w1)
       ∧ lookupDir (cachePrefix ++ ["docs"]) (disk w1) = Some d1
       ∧ (0 < countFiles d1)%nat)
  ∧ (∃ w1,
       sweepItem cachePrefix 1000 1 reportPdf scenarioA = Some ((), w1)
       ∧ disk w1 = unlink (cachePrefix ++ reportPdf) (disk scenarioA)
       ∧ fileExists (cachePrefix ++ reportPdf) (disk w1) = false
       ∧ trace w1 = trace scenarioA ++ [EvRemove (cachePrefix ++ reportPdf) true;
                                        EvMsleep 100;
                                        EvDeleteFileRecord reportPdf false]).
Proof.
  split; [|split].
  - assert (Hsel : selected 1000 (journal directoryTree) ["docs"] = true)
      by (vm_compute; reflexivity).
    assert (Hd : lookupDir (cachePrefix ++ ["docs"]) (disk directoryTree)
                 = Some (MkDir [("old", MkDir [] [("draft.txt", readOnlyFile)])]
                               [("report.pdf", plainFile)]))
      by (vm_compute; reflexivity).
    destruct (proj1 (eviction_removes_files_not_directories cachePrefix 1000 1
                       ["docs"] directoryTree Hsel) _ Hd)
      as (w1 & d1 & Hrun & Hdisk & _ & _ & Hclear & _).
    exists w1. split; [exact Hrun|].
    rewrite Hdisk. f_equal. apply Hclear. vm_compute. reflexivity.
  - assert (Hsel : selected 1000 (journal heldInsideDirectory) ["docs"] = true)
      by (vm_compute; reflexivity).
    assert (Hd : lookupDir (cachePrefix ++ ["docs"]) (disk heldInsideDirectory)
                 = Some (MkDir [] [("report.pdf", heldFile)]))
      by (vm_compute; reflexivity).
    destruct (proj1 (eviction_removes_files_not_directories cachePrefix 1000 1
                       ["docs"] heldInsideDirectory Hsel) _ Hd)
      as (w1 & d1 & Hrun & Hdisk & _ & _ & _ & Hleft).
    exists w1, d1. split; [exact Hrun|]. split; [exact Hdisk|].
    apply Hleft. vm_compute. reflexivity.
  - assert (Hsel : selected 1000 (journal scenarioA) reportPdf = true)
      by (vm_compute; reflexivity).
    apply (proj2 (eviction_removes_files_not_directories cachePrefix 1000 0
                    reportPdf scenarioA Hsel) plainFile);
      vm_compute; reflexivity.
Defined.

(** X1.  [removeDirs] returns true exactly when every file below the
    directory can be removed, directly or after the permission retry
    (it is not in use, and has the write bit or can be given it).  When it
    returns true no file is left below the directory; when it returns
    false at least one file is. *)
Theorem removeDirs_result_tells_whether_files_are_left dirName d :
  (removeDirs dirName d).1.1 = allFiles clearable d
  ∧ ((removeDirs dirName d).1.1 = true →
     countFiles (removeDirs dirName d).1.2 = O)
  ∧ ((removeDirs dirName d).1.1 = false →
     (0 < countFiles (removeDirs dirName d).1.2)%nat).
Proof.
  split; [apply removeDirs_result|]. split.
  - rewrite removeDirs_result. intros Hclear.
    pose proof (removeDirs_clears d dirName Hclear) as Hres.
    replace ((removeDirs dirName d).1.2) with (skeleton d)
      by (now rewrite Hres).
    apply countFiles_skeleton.
  - apply removeDirs_failed.
Qed.

(** X2.  [removeDirs] gives up at the first file it cannot remove: the
    files listed behind it are left in the cache although they could be
    removed, and when the failure is in a sub-directory none of the
    directory's own files is touched (sub-directories are listed first). *)
Theorem removeDirs_gives_up_at_the_first_failure dirName :
  (∀ l1 name a l2,
     forallb (λ e, clearable e.2) l1 = true → clearable a = false →
     ∃ a', (removeFileEntries dirName (l1 ++ (name, a) :: l2)).1
           = (false, (name, a') :: l2))
  ∧ (∀ ds fs,
       (removeSubdirs dirName ds).1.1 = false →
       (removeDirs dirName (MkDir ds fs)).1.1 = false
       ∧ files (removeDirs dirName (MkDir ds fs)).1.2 = fs).
Proof.
  split.
  - intros l1 name a l2 Hl1 Ha.
    induction l1 as [|[name1 a1] l1 IHl1].
    + simpl.
      pose proof (removeFileEntry_result (dirName ++ [name]) a) as Hr.
      pose proof (removeFileEntry_kept (dirName ++ [name]) a) as Hkept.
      destruct (removeFileEntry (dirName ++ [name]) a) as [[r left] ev].
      simpl in Hr, Hkept. rewrite Ha in Hr. subst r.
      destruct (Hkept eq_refl) as [a' ->]. now exists a'.
    + simpl in Hl1. apply andb_true_iff in Hl1 as [Ha1 Hl1].
      destruct (IHl1 Hl1) as [a' IH]. exists a'. simpl.
      pose proof (removeFileEntry_result (dirName ++ [name1]) a1) as Hr.
      destruct (removeFileEntry (dirName ++ [name1]) a1) as [[r left] ev].
      simpl in Hr. rewrite Ha1 in Hr. subst r.
      destruct (removeFileEntries dirName (l1 ++ (name, a) :: l2))
        as [[r' fs'] ev']. exact IH.
  - intros ds fs Hfail. rewrite removeDirs_unfold.
    destruct (removeSubdirs dirName ds) as [[r ds'] ev].
    simpl in Hfail. subst r. now split.
Qed.

(** X3.  Whatever it returns, [removeDirs] removes no directory and adds
    none below the directory it is called on, and leaves no file there
    that was not there before. *)
Theorem removeDirs_keeps_every_directory dirName d :
  (∀ q, dirExists q (removeDirs dirName d).1.2 = dirExists q d)
  ∧ (∀ q, fileExists q (removeDirs dirName d).1.2 = true → fileExists q d = true).
Proof. apply shrunk_exists, removeDirs_shrunk. Qed.

(** ** [substLang] and the choice of the language *)

Lemma occurs_replaceChar before after s :
  before ≠ after → occurs before (replaceChar before after s) = false.
Proof.
  intros Hne. induction s as [|c s IHs]; [reflexivity|].
  simpl. rewrite IHs, orb_false_r. apply bool_decide_eq_false.
  destruct (decide (c = before)); congruence.
Qed.

(** X7.  [substLang] maps [zh_Hans] to [zh_CN], [zh_Hant] to [zh_TW] and
    every other language to itself; applying it twice is applying it once,
    and it never returns a script code.  The language the loop works with
    contains no [-]. *)
Theorem substLang_is_idempotent lang :
  substLang "zh_Hans" = "zh_CN"
  ∧ substLang "zh_Hant" = "zh_TW"
  ∧ substLang (substLang lang) = substLang lang
  ∧ substLang lang ≠ "zh_Hans"
  ∧ substLang lang ≠ "zh_Hant"
  ∧ (lang ≠ "zh_Hans" → lang ≠ "zh_Hant" → substLang lang = lang)
  ∧ occurs "-"%char (normalised lang) = false.
Proof.
  assert (Hrange : ∀ l, substLang l = "zh_CN" ∨ substLang l = "zh_TW"
                        ∨ (substLang l = l ∧ l ≠ "zh_Hans" ∧ l ≠ "zh_Hant")).
  { intros l. unfold substLang. repeat case_decide; auto. }
  split; [reflexivity|]. split; [reflexivity|]. repeat split.
  - destruct (Hrange lang) as [H|[H|[H _]]]; now rewrite !H.
  - destruct (Hrange lang) as [->|[->|[-> [? _]]]]; done.
  - destruct (Hrange lang) as [->|[->|[-> [_ ?]]]]; done.
  - intros H1 H2. unfold substLang. now rewrite !decide_False.
  - unfold normalised.
    destruct (Hrange (replaceChar "-"%char "_"%char lang)) as [->|[->|[-> _]]];
      try reflexivity.
    now apply occurs_replaceChar.
Qed.

Section ChoiceOfLanguage.

Variable loads : string → string → bool.
Variable trPath qtTrPath : string.

Lemma tryLanguages_rejected l :
  ∀ t, Forall (λ lang, accepted loads trPath (normalised lang) = false) l →
  l ≠ [] →
  tryLanguages loads trPath qtTrPath l t
  = MkTranslations (Some (default "C" (ui_lang t))) (installed t).
Proof.
  induction l as [|lang l IH]; intros t Hl Hne; [done|].
  apply Forall_cons in Hl as [Hlang Hl]. simpl. rewrite Hlang.
  destruct l as [|lang' l].
  - simpl. now destruct t as [[x|] ?].
  - rewrite IH by done. now destruct t as [[x|] ?].
Qed.

(** X8.  [setupTranslations] uses the first language of the list that is
    accepted (its client translation loads, or its name starts with [en]):
    the languages behind it are not looked at, and [ui_lang] is that
    language with [-] replaced by [_] and script codes replaced.  A
    language starting with [en] is thus accepted even when no translation
    file loads, and an accepted enforced locale wins over every language of
    the system. *)
Theorem first_accepted_language_is_used pre lang post t :
  Forall (λ l, accepted loads trPath (normalised l) = false) pre →
  accepted loads trPath (normalised lang) = true →
  tryLanguages loads trPath qtTrPath (pre ++ lang :: post) t
  = useLanguage loads trPath qtTrPath (normalised lang) t
  ∧ ui_lang (tryLanguages loads trPath qtTrPath (pre ++ lang :: post) t)
    = Some (normalised lang)
  ∧ (pre = [] → lang ≠ "" → ∀ system,
       setupTranslations loads trPath qtTrPath system lang t
       = useLanguage loads trPath qtTrPath (normalised lang) t)
  ∧ (∀ english, String.prefix "en" english = true →
       accepted loads trPath english = true).
Proof.
  intros Hpre Hlang.
  assert (Hrun : tryLanguages loads trPath qtTrPath (pre ++ lang :: post) t
                 = useLanguage loads trPath qtTrPath (normalised lang) t).
  { revert t. induction Hpre as [|l pre Hl _ IH]; intros t.
    - simpl. now rewrite Hlang.
    - simpl. rewrite Hl, IH. now destruct t as [[x|] ?]. }
  split; [exact Hrun|]. split; [now rewrite Hrun|]. split.
  - intros _ Hne system. unfold setupTranslations.
    rewrite decide_False by exact Hne. simpl. now rewrite Hlang.
  - intros english Hen. unfold accepted. now rewrite Hen, orb_true_r.
Qed.

(** X9.  When no language of the list is accepted, no translator is
    installed and [ui_lang] becomes [C] unless it was set before; with an
    empty list (no enforced locale, no language of the system) nothing is
    set at all and [ui_lang] stays unset. *)
Theorem no_accepted_language_falls_back_to_C system enforcedLocale t :
  Forall (λ l, accepted loads trPath (normalised l) = false) system →
  (enforcedLocale = "" ∨ accepted loads trPath (normalised enforcedLocale) = false) →
  installed (setupTranslations loads trPath qtTrPath system enforcedLocale t)
  = installed t
  ∧ ui_lang (setupTranslations loads trPath qtTrPath system enforcedLocale t)
    = (if decide (enforcedLocale = "" ∧ system = []) then ui_lang t
       else Some (default "C" (ui_lang t))).
Proof.
  intros Hsystem Henforced. unfold setupTranslations.
  destruct (decide (enforcedLocale = "")) as [Hempty|Hne].
  - destruct system as [|lang system].
    + now rewrite decide_True.
    + rewrite tryLanguages_rejected by done.
      now rewrite decide_False by (intros [_ ?]; done).
  - destruct Henforced as [?|Hrej]; [done|].
    rewrite tryLanguages_rejected by (try done; now constructor).
    now rewrite decide_False by (intros [? _]; done).
Qed.

End ChoiceOfLanguage.

(** ** [toHtml] *)

Lemma append_String c s1 s2 : String c s1 +:+ s2 = String c (s1 +:+ s2).
Proof. reflexivity. Qed.

Lemma append_empty s : "" +:+ s = s.
Proof. reflexivity. Qed.

Lemma append_assoc s1 s2 s3 : (s1 +:+ s2) +:+ s3 = s1 +:+ (s2 +:+ s3).
Proof.
  induction s1 as [|c s1 IH]; [reflexivity|].
  rewrite !append_String. now rewrite IH.
Qed.

Lemma length_append s1 s2 :
  String.length (s1 +:+ s2) = (String.length s1 + String.length s2)%nat.
Proof.
  induction s1 as [|c s1 IH]; [reflexivity|].
  rewrite append_String. simpl. now rewrite IH.
Qed.

Lemma append_cancel_r s1 : ∀ s2 s, s1 +:+ s = s2 +:+ s → s1 = s2.
Proof.
  induction s1 as [|c1 s1 IH]; intros [|c2 s2] s H; try reflexivity.
  - apply (f_equal String.length) in H.
    rewrite !length_append in H. simpl in H. lia.
  - apply (f_equal String.length) in H.
    rewrite !length_append in H. simpl in H. lia.
  - rewrite !append_String in H. injection H as -> H. f_equal. now apply (IH s2 s).
Qed.

Lemma replaceCharBy_ne before after c s :
  c ≠ before →
  replaceCharBy before after (String c s) = String c (replaceCharBy before after s).
Proof. intros Hne. simpl. now rewrite decide_False. Qed.

Lemma replaceCharBy_eq before after s :
  replaceCharBy before after (String before s)
  = after +:+ replaceCharBy before after s.
Proof. simpl. now rewrite decide_True. Qed.

Lemma replaced_is_entities t :
  replaceCharBy ">"%char "&gt;"
    (replaceCharBy "<"%char "&lt;" (replaceCharBy "&"%char "&amp;" t))
  = entities t.
Proof.
  induction t as [|c t IH]; [reflexivity|].
  change (entities (String c t)) with (entity c +:+ entities t).
  unfold entity.
  destruct (decide (c = "&"%char)) as [->|Hamp].
  - rewrite replaceCharBy_eq, !append_String, !append_empty.
    rewrite !replaceCharBy_ne by done. now rewrite IH.
  - rewrite (replaceCharBy_ne "&"%char) by done.
    destruct (decide (c = "<"%char)) as [->|Hlt].
    + rewrite replaceCharBy_eq, !append_String, !append_empty.
      rewrite !replaceCharBy_ne by done. now rewrite IH.
    + rewrite (replaceCharBy_ne "<"%char) by done.
      destruct (decide (c = ">"%char)) as [->|Hgt].
      * rewrite replaceCharBy_eq. now rewrite IH.
      * rewrite (replaceCharBy_ne ">"%char) by done. now rewrite IH.
Qed.

Lemma entity_cases c :
  (c = "&"%char ∧ entity c = "&amp;")
  ∨ (c = "<"%char ∧ entity c = "&lt;")
  ∨ (c = ">"%char ∧ entity c = "&gt;")
  ∨ (c ≠ "&"%char ∧ c ≠ "<"%char ∧ c ≠ ">"%char ∧ entity c = String c EmptyString).
Proof.
  unfold entity.
  destruct (decide (c = "&"%char)) as [->|?]; [now left|].
  destruct (decide (c = "<"%char)) as [->|?]; [right; now left|].
  destruct (decide (c = ">"%char)) as [->|?]; [right; right; now left|].
  now repeat right.
Qed.

Lemma entities_inj t1 : ∀ t2, entities t1 = entities t2 → t1 = t2.
Proof.
  induction t1 as [|c1 t1 IH]; intros [|c2 t2];
    change (entities EmptyString) with EmptyString;
    repeat match goal with
           | |- context [entities (String ?c ?t)] =>
               change (entities (String c t)) with (entity c +:+ entities t)
           end.
  - reflexivity.
  - destruct (entity_cases c2) as [[_ ->]|[[_ ->]|[[_ ->]|(_ & _ & _ & ->)]]];
      discriminate.
  - destruct (entity_cases c1) as [[_ ->]|[[_ ->]|[[_ ->]|(_ & _ & _ & ->)]]];
      discriminate.
  - destruct (entity_cases c1)
      as [[-> ->]|[[-> ->]|[[-> ->]|(Ha1 & Hl1 & Hg1 & ->)]]];
      destruct (entity_cases c2)
        as [[-> ->]|[[-> ->]|[[-> ->]|(Ha2 & Hl2 & Hg2 & ->)]]];
      rewrite ?append_String, ?append_empty; intros H; try discriminate;
      try (injection H as Hrest; now rewrite (IH t2 Hrest));
      try (injection H as Hc Hrest; congruence).
  injection H as -> Hrest. now rewrite (IH t2 Hrest).
Qed.

Lemma occurs_append c s1 s2 : occurs c (s1 +:+ s2) = occurs c s1 || occurs c s2.
Proof.
  induction s1 as [|c1 s1 IH]; [reflexivity|].
  rewrite append_String. simpl. now rewrite IH, orb_assoc.
Qed.

Lemma entities_clean t :
  occurs "<"%char (entities t) = false ∧ occurs ">"%char (entities t) = false.
Proof.
  induction t as [|c t [IHlt IHgt]]; [now split|].
  change (entities (String c t)) with (entity c +:+ entities t).
  rewrite !occurs_append, IHlt, IHgt, !orb_false_r.
  destruct (entity_cases c) as [[_ ->]|[[_ ->]|[[_ ->]|(Ha & Hl & Hg & ->)]]];
    try (now split).
  simpl. rewrite !orb_false_r. split; now apply bool_decide_eq_false.
Qed.

(** X10.  [toHtml] replaces each [&], [<] and [>] of the text by its
    entity, once: because [&] is replaced first, the [&] of an entity is
    not replaced again.  Between the two tags the result holds no [<] and
    no [>], and two different texts give two different results. *)
Theorem toHtml_escapes_each_character_once t :
  toHtml t = "<html><pre>" +:+ entities t +:+ "</pre></html>"
  ∧ occurs "<"%char (entities t) = false
  ∧ occurs ">"%char (entities t) = false
  ∧ ∀ t', toHtml t = toHtml t' → t = t'.
Proof.
  assert (Hform : ∀ x, toHtml x = "<html><pre>" +:+ entities x +:+ "</pre></html>").
  { intros x. unfold toHtml. now rewrite replaced_is_entities. }
  split; [apply Hform|]. split; [apply entities_clean|].
  split; [apply entities_clean|].
  intros t'. rewrite !Hform. intros H.
  apply String.app_inj, append_cancel_r in H. now apply entities_inj.
Qed.

(** ** The options *)

Lemma keepsSwitchedOn_refl o : keepsSwitchedOn o o.
Proof. unfold keepsSwitchedOn. tauto. Qed.

Lemma keepsSwitchedOn_trans o1 o2 o3 :
  keepsSwitchedOn o1 o2 → keepsSwitchedOn o2 o3 → keepsSwitchedOn o1 o3.
Proof. unfold keepsSwitchedOn. tauto. Qed.

Section OptionsFacts.

Variable toInt : string → Z.
Variable setConfDir : string → bool.

(** One turn of the loop, by the kind of the option. *)
Lemma parseLoop_step option :
  ((option = "--help" ∨ option = "-h")
   ∧ ∀ it1 o, parseLoop toInt setConfDir (option :: it1) o = Continues (setHelp o))
  ∨ (option ∈ ["--logwindow"; "-l"; "--logflush"; "--logdebug"; "--debug";
               "--background"; "--version"; "-v"]
     ∧ ∃ set : Options → Options,
         (∀ o, keepsSwitchedOn o (set o))
         ∧ ∀ it1 o, parseLoop toInt setConfDir (option :: it1) o
                    = parseLoop toInt setConfDir it1 (set o))
  ∨ (option ∈ ["--logfile"; "--logdir"; "--logexpire"]
     ∧ ∃ (set : string → Options → Options) (hint : string),
         (∀ value o, keepsSwitchedOn o (set value o))
         ∧ ∀ it1 o, parseLoop toInt setConfDir (option :: it1) o
                    = match it1 with
                      | value :: it2 =>
                          if String.prefix "--" value then showHint hint
                          else parseLoop toInt setConfDir it2 (set value o)
                      | [] => showHint hint
                      end)
  ∨ (option = "--confdir"
     ∧ ∀ it1 o, parseLoop toInt setConfDir (option :: it1) o
                = match it1 with
                  | value :: it2 =>
                      if String.prefix "--" value
                      then showHint "Path for confdir not specified"
                      else if setConfDir value
                           then parseLoop toInt setConfDir it2 (tookConfDir value o)
                           else showHint "Invalid path passed to --confdir"
                  | [] => showHint "Path for confdir not specified"
                  end)
  ∨ ((option ∉ ["--help"; "-h"; "--logwindow"; "-l"; "--logfile"; "--logdir";
                "--logexpire"; "--logflush"; "--logdebug"; "--confdir";
                "--debug"; "--background"; "--version"; "-v"])
     ∧ ∀ it1 o, parseLoop toInt setConfDir (option :: it1) o
                = showHint ("Unrecognized option '" +:+ option +:+ "'")).
Proof.
  destruct (decide (option = "--help")) as [->|H1];
    [left; split; [now left | reflexivity]|].
  destruct (decide (option = "-h")) as [->|H2];
    [left; split; [now right | reflexivity]|].
  destruct (decide (option = "--logwindow")) as [->|H3].
  { right; left. split; [set_solver|]. exists setShowLogWindow.
    split; [intros o; unfold keepsSwitchedOn; simpl; tauto | reflexivity]. }
  destruct (decide (option = "-l")) as [->|H4].
  { right; left. split; [set_solver|]. exists setShowLogWindow.
    split; [intros o; unfold keepsSwitchedOn; simpl; tauto | reflexivity]. }
  destruct (decide (option = "--logfile")) as [->|H5].
  { right; right; left. split; [set_solver|].
    exists setLogFile, "Log file not specified".
    split; [intros v o; unfold keepsSwitchedOn; simpl; tauto | reflexivity]. }
  destruct (decide (option = "--logdir")) as [->|H6].
  { right; right; left. split; [set_solver|].
    exists setLogDir, "Log dir not specified".
    split; [intros v o; unfold keepsSwitchedOn; simpl; tauto | reflexivity]. }
  destruct (decide (option = "--logexpire")) as [->|H7].
  { right; right; left. split; [set_solver|].
    exists (λ value, setLogExpire (toInt value)), "Log expiration not specified".
    split; [intros v o; unfold keepsSwitchedOn; simpl; tauto | reflexivity]. }
  destruct (decide (option = "--logflush")) as [->|H8].
  { right; left. split; [set_solver|]. exists setLogFlush.
    split; [intros o; unfold keepsSwitchedOn; simpl; tauto | reflexivity]. }
  destruct (decide (option = "--logdebug")) as [->|H9].
  { right; left. split; [set_solver|]. exists setLogDebug.
    split; [intros o; unfold keepsSwitchedOn; simpl; tauto | reflexivity]. }
  destruct (decide (option = "--confdir")) as [->|H10].
  { right; right; right; left. split; reflexivity. }
  destruct (decide (option = "--debug")) as [->|H11].
  { right; left. split; [set_solver|]. exists setDebug.
    split; [intros o; unfold keepsSwitchedOn; simpl; tauto | reflexivity]. }
  destruct (decide (option = "--background")) as [->|H12].
  { right; left. split; [set_solver|]. exists setBackgroundMode.
    split; [intros o; unfold keepsSwitchedOn; simpl; tauto | reflexivity]. }
  destruct (decide (option = "--version")) as [->|H13].
  { right; left. split; [set_solver|]. exists setVersionOnly.
    split; [intros o; unfold keepsSwitchedOn; simpl; tauto | reflexivity]. }
  destruct (decide (option = "-v")) as [->|H14].
  { right; left. split; [set_solver|]. exists setVersionOnly.
    split; [intros o; unfold keepsSwitchedOn; simpl; tauto | reflexivity]. }
  right; right; right; right. split.
  - rewrite !not_elem_of_cons. repeat split; try done. apply not_elem_of_nil.
  - intros it1 o. simpl. now rewrite !bool_decide_eq_false_2 by done.
Qed.

(** The loop ends in one of two ways: it returns, having read a well
    formed list and switched nothing off, or the process exits with
    code 1. *)
Lemma parseLoop_outcome it : ∀ o,
  (∃ o', parseLoop toInt setConfDir it o = Continues o'
         ∧ wellFormed setConfDir it ∧ keepsSwitchedOn o o')
  ∨ (∃ errorHint, parseLoop toInt setConfDir it o = Exits 1 errorHint).
Proof.
  assert (Hall : ∀ (n : nat) it, (length it <= n)%nat → ∀ o,
    (∃ o', parseLoop toInt setConfDir it o = Continues o'
           ∧ wellFormed setConfDir it ∧ keepsSwitchedOn o o')
    ∨ (∃ errorHint, parseLoop toInt setConfDir it o = Exits 1 errorHint)).
  { clear it. induction n as [|n IH]; intros [|option it1] Hlen o;
      try (left; exists o; split; [reflexivity|];
           split; [constructor | apply keepsSwitchedOn_refl]).
    { simpl in Hlen. lia. }
    simpl in Hlen.
    destruct (parseLoop_step option)
      as [[Hopt Heq]|[[Hin (set & Hset & Heq)]|[[Hin (set & hint & Hset & Heq)]
         |[[-> Heq]|[_ Heq]]]]]; rewrite Heq.
    - left. exists (setHelp o). split; [reflexivity|].
      split; [now apply wellFormed_help|].
      unfold keepsSwitchedOn; simpl; tauto.
    - destruct (IH it1 ltac:(lia) (set o)) as [(o' & -> & Hwf & Hon)|[h ->]].
      + left. exists o'. split; [reflexivity|].
        split; [now apply wellFormed_flag|].
        exact (keepsSwitchedOn_trans _ _ _ (Hset o) Hon).
      + right. now exists h.
    - destruct it1 as [|value it2]; [right; now eexists|].
      destruct (String.prefix "--" value) eqn:Hvalue; [right; now eexists|].
      simpl in Hlen.
      destruct (IH it2 ltac:(lia) (set value o)) as [(o' & -> & Hwf & Hon)|[h ->]].
      + left. exists o'. split; [reflexivity|].
        split; [now apply wellFormed_value|].
        exact (keepsSwitchedOn_trans _ _ _ (Hset value o) Hon).
      + right. now exists h.
    - destruct it1 as [|value it2]; [right; now eexists|].
      destruct (String.prefix "--" value) eqn:Hvalue; [right; now eexists|].
      destruct (setConfDir value) eqn:Htook; [|right; now eexists].
      simpl in Hlen.
      destruct (IH it2 ltac:(lia) (tookConfDir value o))
        as [(o' & -> & Hwf & Hon)|[h ->]].
      + left. exists o'. split; [reflexivity|].
        split; [now apply wellFormed_confdir|].
        refine (keepsSwitchedOn_trans _ _ _ _ Hon).
        unfold keepsSwitchedOn; simpl; tauto.
      + right. now exists h.
    - right. now eexists. }
  exact (Hall (length it) it (le_n _)).
Qed.

(** A well formed list is read to its end, or up to a request for help. *)
Lemma parseLoop_wellFormed it :
  wellFormed setConfDir it → ∀ o, ∃ o', parseLoop toInt setConfDir it o = Continues o'.
Proof.
  induction 1 as [|option rest Hopt|option rest Hin _ IH
                  |option value rest Hin Hvalue _ IH|value rest Hvalue Htook _ IH];
    intros o.
  - now exists o.
  - exists (setHelp o). now destruct Hopt as [->| ->].
  - repeat (apply elem_of_cons in Hin as [->|Hin]);
      [..|now apply elem_of_nil in Hin]; apply IH.
  - repeat (apply elem_of_cons in Hin as [->|Hin]);
      [..|now apply elem_of_nil in Hin];
      simpl; rewrite Hvalue; apply IH.
  - simpl. rewrite Hvalue, Htook. apply IH.
Qed.

(** What was read before goes first: the rest is read from the options
    that the first part left, unless the first part asked for help. *)
Lemma parseLoop_app pre : ∀ o o',
  parseLoop toInt setConfDir pre o = Continues o' →
  (∀ rest, parseLoop toInt setConfDir (pre ++ rest) o
           = parseLoop toInt setConfDir rest o')
  ∨ (_helpOnly o' = true
     ∧ ∀ rest, parseLoop toInt setConfDir (pre ++ rest) o = Continues o').
Proof.
  assert (Hall : ∀ (n : nat) pre, (length pre <= n)%nat → ∀ o o',
    parseLoop toInt setConfDir pre o = Continues o' →
    (∀ rest, parseLoop toInt setConfDir (pre ++ rest) o
             = parseLoop toInt setConfDir rest o')
    ∨ (_helpOnly o' = true
       ∧ ∀ rest, parseLoop toInt setConfDir (pre ++ rest) o = Continues o')).
  { clear pre. induction n as [|n IH]; intros [|option it1] Hlen o o' Hpre;
      try (left; intros rest; simpl in Hpre; now injection Hpre as ->).
    { simpl in Hlen. lia. }
    simpl in Hlen.
    destruct (parseLoop_step option)
      as [[Hopt Heq]|[[Hin (set & Hset & Heq)]|[[Hin (set & hint & Hset & Heq)]
         |[[-> Heq]|[_ Heq]]]]]; rewrite Heq in Hpre.
    - injection Hpre as <-. right. split; [reflexivity|].
      intros rest. rewrite <- app_comm_cons. apply Heq.
    - destruct (IH it1 ltac:(lia) _ _ Hpre) as [Hrest|[Hhelp Hrest]].
      + left. intros rest. rewrite <- app_comm_cons, Heq. apply Hrest.
      + right. split; [exact Hhelp|].
        intros rest. rewrite <- app_comm_cons, Heq. apply Hrest.
    - destruct it1 as [|value it2]; [discriminate|].
      destruct (String.prefix "--" value) eqn:Hvalue; [discriminate|].
      simpl in Hlen.
      destruct (IH it2 ltac:(lia) _ _ Hpre) as [Hrest|[Hhelp Hrest]].
      + left. intros rest. rewrite <- !app_comm_cons, Heq, Hvalue. apply Hrest.
      + right. split; [exact Hhelp|].
        intros rest. rewrite <- !app_comm_cons, Heq, Hvalue. apply Hrest.
    - destruct it1 as [|value it2]; [discriminate|].
      destruct (String.prefix "--" value) eqn:Hvalue; [discriminate|].
      destruct (setConfDir value) eqn:Htook; [|discriminate].
      simpl in Hlen.
      destruct (IH it2 ltac:(lia) _ _ Hpre) as [Hrest|[Hhelp Hrest]].
      + left. intros rest.
        rewrite <- !app_comm_cons, Heq, Hvalue, Htook. apply Hrest.
      + right. split; [exact Hhelp|].
        intros rest. rewrite <- !app_comm_cons, Heq, Hvalue, Htook. apply Hrest.
    - discriminate. }
  intros o o'. exact (Hall (length pre) pre (le_n _) o o').
Qed.

Lemma setHelp_again o : _helpOnly o = true → setHelp o = o.
Proof. destruct o. simpl. now intros ->. Qed.

(** X11.  [parseOptions] skips the first word and then either returns,
    which it does exactly on a well formed list of words (flags, options
    with a value that does not start with two dashes, configuration
    directories that are taken; anything at all behind a request for help),
    or ends the process with exit code 1. *)
Theorem parseOptions_returns_on_well_formed_options_only options o :
  (wellFormed setConfDir (tail options)
   ∧ ∃ o', parseOptions toInt setConfDir options o = Continues o')
  ∨ (¬ wellFormed setConfDir (tail options)
     ∧ ∃ errorHint, parseOptions toInt setConfDir options o = Exits 1 errorHint).
Proof.
  unfold parseOptions.
  destruct (parseLoop_outcome (tail options) o) as [(o' & Ho' & Hwf & _)|[h Hh]].
  - left. split; [exact Hwf | now exists o'].
  - right. split; [|now exists h].
    intros Hwf. destruct (parseLoop_wellFormed _ Hwf o) as [o' Ho'].
    congruence.
Qed.

(** X12.  A request for help ends the parsing: when the words before it
    are read without an exit, the words behind [--help] or [-h] are not
    looked at, whatever they are, and the call returns with the options
    of the words before and [_helpOnly] set. *)
Theorem nothing_is_read_after_a_request_for_help name pre option rest o o' :
  option = "--help" ∨ option = "-h" →
  parseOptions toInt setConfDir (name :: pre) o = Continues o' →
  parseOptions toInt setConfDir (name :: pre ++ option :: rest) o
  = Continues (setHelp o').
Proof.
  unfold parseOptions. simpl tail. intros Hopt Hpre.
  destruct (parseLoop_app pre o o' Hpre) as [Hrest|[Hhelp Hrest]].
  - rewrite Hrest. now destruct Hopt as [->| ->].
  - now rewrite Hrest, setHelp_again.
Qed.

(** X13.  [parseOptions] only switches on: no flag that is set before the
    call is cleared by it, whatever the words are. *)
Theorem parseOptions_switches_nothing_off options o o' :
  parseOptions toInt setConfDir options o = Continues o' →
  keepsSwitchedOn o o'.
Proof.
  unfold parseOptions. intros Hrun.
  destruct (parseLoop_outcome (tail options) o) as [(o1 & Ho1 & _ & Hon)|[h Hh]];
    congruence.
Qed.

End OptionsFacts.

(** ** Messages of a second instance *)

Lemma split_unbroken sep part :
  occurs sep part = false → split sep part = [part].
Proof.
  induction part as [|c part IH]; [reflexivity|]. simpl.
  intros [Hc Hpart]%orb_false_elim. apply bool_decide_eq_false in Hc.
  rewrite decide_False by exact Hc. now rewrite IH.
Qed.

Lemma split_append sep part s :
  occurs sep part = false →
  split sep (part +:+ String sep s) = part :: split sep s.
Proof.
  induction part as [|c part IH]; simpl.
  - intros _. now rewrite decide_True.
  - intros [Hc Hpart]%orb_false_elim. apply bool_decide_eq_false in Hc.
    rewrite decide_False by exact Hc.
    now rewrite (IH Hpart).
Qed.

Lemma split_join sep part parts :
  Forall (λ p, occurs sep p = false) (part :: parts) →
  split sep (join sep (part :: parts)) = part :: parts.
Proof.
  revert part. induction parts as [|next parts IH]; intros part Hparts.
  - apply split_unbroken. now inversion Hparts.
  - inversion Hparts as [|? ? Hpart Hrest]; subst.
    change (join sep (part :: next :: parts))
      with (part +:+ String sep (join sep (next :: parts))).
    now rewrite split_append, IH.
Qed.

Lemma prefix_append p s : String.prefix p (p +:+ s) = true.
Proof.
  induction p as [|c p IH]; [now destruct s|].
  rewrite append_String. simpl. now destruct (ascii_dec c c).
Qed.

Section MessageFacts.

Variable toInt : string → Z.
Variable setConfDir : string → bool.
Variable isLoggingToFile : Logger → bool.
Variable configFile : ConfigFile.
Variable elapsed : Z.

(** X14.  An options message is read back as the words it was made of:
    for words without a [|], the message [MSG_PARSEOPTIONS:] followed by
    the words joined by [|] has the outcome of [parseOptions] on these
    words, followed by [setupLogging] when it returns. *)
Theorem options_message_is_parsed_as_the_words_sent args i :
  Forall (λ arg, occurs "|" arg = false) args →
  slotParseMessage toInt setConfDir isLoggingToFile configFile elapsed
    ("MSG_PARSEOPTIONS:" +:+ join "|" args) i
  = match parseOptions toInt setConfDir args (options i) with
    | Continues o =>
        Continues
          (MkInstance o
             (setupLogging isLoggingToFile configFile o (logger i))
             (mainDialogsShown i))
    | Exits code errorHint => Exits code errorHint
    end.
Proof.
  intros Hargs. unfold slotParseMessage.
  rewrite prefix_append.
  change (mid 17 ("MSG_PARSEOPTIONS:" +:+ join "|" args)) with (join "|" args).
  cbv zeta. destruct args as [|arg args]; [reflexivity|].
  now rewrite split_join.
Qed.

(** X15.  A message ends the running application only when it is an
    options message whose words, the first left out, are not well formed,
    and then with exit code 1. *)
Theorem message_exits_on_bad_options_only msg i code errorHint :
  slotParseMessage toInt setConfDir isLoggingToFile configFile elapsed msg i
  = Exits code errorHint →
  code = 1
  ∧ String.prefix "MSG_PARSEOPTIONS:" msg = true
  ∧ ¬ wellFormed setConfDir (tail (split "|" (mid 17 msg))).
Proof.
  unfold slotParseMessage.
  destruct (String.prefix "MSG_PARSEOPTIONS:" msg).
  - cbv zeta.
    unfold parseOptions.
    destruct (parseLoop_outcome toInt setConfDir
                (tail (split "|" (mid 17 msg))) (options i))
      as [(o' & -> & _)|[h Hh]]; [discriminate|].
    rewrite Hh. intros [= <- _]. split; [reflexivity|]. split; [reflexivity|].
    intros Hwf.
    destruct (parseLoop_wellFormed toInt setConfDir _ Hwf (options i)) as [o' Ho'].
    congruence.
  - destruct (String.prefix "MSG_SHOWMAINDIALOG" msg); [|discriminate].
    now case_bool_decide.
Qed.


End MessageFacts.

(** ** The connection timer and the wizard *)

Lemma slotCheckConnection_with_accounts checkConnectivity app :
  accounts app ≠ [] →
  accounts (slotCheckConnection checkConnectivity app) ≠ []
  ∧ length (accounts (slotCheckConnection checkConnectivity app))
    = length (accounts app)
  ∧ checkConnectionTimerActive (slotCheckConnection checkConnectivity app)
    = checkConnectionTimerActive app
  ∧ setupFlow (slotCheckConnection checkConnectivity app) = setupFlow app.
Proof.
  intros Hsome. unfold slotCheckConnection.
  rewrite bool_decide_eq_false_2 by exact Hsome. simpl.
  rewrite length_fmap. split; [|done].
  destruct (accounts app); [done|discriminate].
Qed.

(** X17.  While an account is registered, the connection checks neither
    stop their timer nor ask for the setup, and they leave the number of
    accounts as it is, over any number of timeouts and whatever the checks
    make of the accounts. *)
Theorem checks_go_on_while_an_account_is_registered app app' :
  timeouts app app' →
  accounts app ≠ [] →
  length (accounts app') = length (accounts app)
  ∧ checkConnectionTimerActive app' = checkConnectionTimerActive app
  ∧ setupFlow app' = setupFlow app.
Proof.
  induction 1 as [app|f app app' _ IH]; [done|]. intros Hsome.
  assert (Hstep : accounts (timeout f app) ≠ []
                  ∧ length (accounts (timeout f app)) = length (accounts app)
                  ∧ checkConnectionTimerActive (timeout f app)
                    = checkConnectionTimerActive app
                  ∧ setupFlow (timeout f app) = setupFlow app).
  { unfold timeout. destruct (checkConnectionTimerActive app) eqn:Hactive; [|done].
    rewrite <- Hactive. now apply slotCheckConnection_with_accounts. }
  destruct Hstep as (Hsome' & Hlen & Htimer & Hflow).
  destruct (IH Hsome') as (Hlen' & Htimer' & Hflow'). split; [|split]; congruence.
Qed.

Section WizardFacts.

Variable checkConnectivity : AccountState → AccountState.
Variable Accepted : Z.

(** X18.  When the wizard is done, syncs are scheduled again.  After an
    accepted wizard the connection timer runs exactly when an account is
    registered: with none, the check that follows the start of the timer
    stops it again and asks for the setup once more.  The client is set to
    launch on start-up when exactly one account is registered.  After a
    wizard that was not accepted the application is as before: no timer is
    started and no account is checked. *)
Theorem wizard_done_restarts_the_checks res d :
  syncEnabled (slotownCloudWizardDone checkConnectivity Accepted res d) = true
  ∧ (res = Accepted →
     checkConnectionTimerActive
       (application (slotownCloudWizardDone checkConnectivity Accepted res d))
     = bool_decide (accounts (application d) ≠ [])
     ∧ setupFlow
         (application (slotownCloudWizardDone checkConnectivity Accepted res d))
       = setupFlow (application d)
         ++ (if bool_decide (accounts (application d) = [])
             then [NewAccountWizard] else [])
     ∧ (launchOnStartup (slotownCloudWizardDone checkConnectivity Accepted res d)
        = true
        ↔ launchOnStartup d = true ∨ length (accounts (application d)) = 1%nat))
  ∧ (res ≠ Accepted →
     application (slotownCloudWizardDone checkConnectivity Accepted res d)
     = application d
     ∧ launchOnStartup (slotownCloudWizardDone checkConnectivity Accepted res d)
       = launchOnStartup d).
Proof.
  unfold slotownCloudWizardDone. split; [now case_bool_decide|]. split.
  - intros ->. rewrite bool_decide_eq_true_2 by reflexivity. cbv zeta. simpl.
    rewrite slotCheckConnection_accounts, length_fmap. simpl.
    unfold slotCheckConnection. simpl.
    destruct (accounts (application d)) as [|a l] eqn:Hacc; simpl.
    + split; [reflexivity|]. split; [reflexivity|].
      split; [now left|]. intros [Hset|Hone]; [exact Hset|discriminate].
    + rewrite app_nil_r. split; [reflexivity|]. split; [reflexivity|].
      case_bool_decide as Hone; [now split; [right|]|].
      split; [now left|]. now intros [Hset|Hone'].
  - intros Hne. now rewrite bool_decide_eq_false_2 by exact Hne.
Qed.

End WizardFacts.

(** ** The virtual drive *)

Section MountFacts.

Variable appName : string.
Variable appDataLocation : string.
Variable availableLogicalDrive : string.

Lemma append_not_empty s c t : s +:+ String c t ≠ "".
Proof. destruct s; [discriminate|]. rewrite append_String. discriminate. Qed.

(** X19.  With the virtual file system enabled, the slot mounts the drive
    once, under the first letter of the available logical drive, whatever
    letter the configuration file holds, and with the mirror path that the
    configuration file held before the call: when that was empty, the
    default that the slot writes to the configuration file is not the path
    that the drive is given.  With the virtual file system disabled nothing
    is mounted and nothing is written. *)
Theorem drive_is_mounted_with_the_path_read_first accountState configFile mounts :
  (enableVirtualFileSystem configFile = true →
   ∃ m,
     (slotMountVirtualDrive appName appDataLocation availableLogicalDrive
        accountState configFile mounts).2 = mounts ++ [m]
     ∧ letter m = firstLetter availableLogicalDrive
     ∧ mirrorPath m = defaultFileStreamMirrorPath configFile
     ∧ (defaultFileStreamMirrorPath
          (slotMountVirtualDrive appName appDataLocation availableLogicalDrive
             accountState configFile mounts).1 = mirrorPath m
        ↔ defaultFileStreamMirrorPath configFile ≠ ""))
  ∧ (enableVirtualFileSystem configFile = false →
     slotMountVirtualDrive appName appDataLocation availableLogicalDrive
       accountState configFile mounts = (configFile, mounts)).
Proof.
  unfold slotMountVirtualDrive. split; intros ->; [|reflexivity].
  eexists. split; [reflexivity|]. cbv zeta. simpl.
  split; [reflexivity|]. split; [reflexivity|].
  destruct configFile as [e sp mp ld]. simpl.
  repeat case_bool_decide; subst; simpl; split; try done;
    intros H'; exfalso; revert H'; apply append_not_empty.
Qed.

(** X20.  The slot fills in what the configuration file leaves empty and
    overwrites nothing: a path or letter that is set stays as it is, the
    sync path and the mirror path are set after the call, and a second call
    that finds the same logical drive available writes nothing new. *)
Theorem mount_only_fills_in_empty_settings accountState configFile mounts :
  enableVirtualFileSystem configFile = true →
  let configFile' :=
    (slotMountVirtualDrive appName appDataLocation availableLogicalDrive
       accountState configFile mounts).1 in
  (defaultFileStreamSyncPath configFile ≠ "" →
   defaultFileStreamSyncPath configFile' = defaultFileStreamSyncPath configFile)
  ∧ (defaultFileStreamMirrorPath configFile ≠ "" →
     defaultFileStreamMirrorPath configFile'
     = defaultFileStreamMirrorPath configFile)
  ∧ (defaultFileStreamLetterDrive configFile ≠ "" →
     defaultFileStreamLetterDrive configFile'
     = defaultFileStreamLetterDrive configFile)
  ∧ defaultFileStreamSyncPath configFile' ≠ ""
  ∧ defaultFileStreamMirrorPath configFile' ≠ ""
  ∧ ∀ accountState' mounts',
      (slotMountVirtualDrive appName appDataLocation availableLogicalDrive
         accountState' configFile' mounts').1 = configFile'.
Proof.
  intros Henabled configFile'. subst configFile'. unfold slotMountVirtualDrive.
  rewrite Henabled. cbv zeta. simpl.
  destruct configFile as [e sp mp ld]. simpl in *. subst e.
  assert (Hsync : availableLogicalDrive +:+ ":/" +:+ appName ≠ "").
  { destruct availableLogicalDrive; [discriminate|].
    rewrite append_String. discriminate. }
  assert (Hmirror : appDataLocation +:+ "/cachedFiles" ≠ "")
    by apply append_not_empty.
  repeat case_bool_decide; subst; simpl; repeat split; try done;
    intros _ _; simpl; repeat case_bool_decide; try done.
Qed.

End MountFacts.

(** ** The further properties on the scenarios *)

(** X4 on the directory tree: the directory [docs] is there after the
    sweep as before. *)
Lemma sweep_only_takes_files_away_directoryTree :
  dirExists (cachePrefix ++ ["docs"]) (disk afterDirectoryTree)
  = dirExists (cachePrefix ++ ["docs"]) (disk directoryTree).
Proof.
  assert (Hrun : slotDeleteOnlineFiles cachePrefix 1000 1 directoryTree
                 = Some ((), afterDirectoryTree)) by (vm_compute; reflexivity).
  exact (proj1 (sweep_only_takes_files_away cachePrefix 1000 1 directoryTree
                  afterDirectoryTree Hrun) (cachePrefix ++ ["docs"])).
Defined.

(** X5 on the Offline file inside the Online directory: its record is
    kept. *)
Lemma sweep_only_deletes_idle_online_records_offlineInsideOnline :
  journal afterOfflineInsideOnline !! reportPdf
  = Some (MkRecord SYNCMODE_OFFLINE SYNCMODE_DOWNLOADED_YES 990).
Proof.
  assert (Hrun : slotDeleteOnlineFiles cachePrefix 1000 1 offlineInsideOnline
                 = Some ((), afterOfflineInsideOnline)) by (vm_compute; reflexivity).
  apply (proj2 (sweep_only_deletes_idle_online_records cachePrefix 1000 1
                  offlineInsideOnline afterOfflineInsideOnline Hrun)).
  - vm_compute. reflexivity.
  - left. reflexivity.
Defined.

(** X6 on the two paths that the sweep leaves alone. *)
Lemma sweep_without_idle_online_path_is_a_no_op_nothingToEvict :
  slotDeleteOnlineFiles cachePrefix 1000 0 nothingToEvict
  = Some ((), nothingToEvict).
Proof.
  apply sweep_without_idle_online_path_is_a_no_op.
  intros p r Hr. unfold nothingToEvict in Hr. simpl in Hr.
  apply lookup_insert_Some in Hr as [[_ <-]|[_ Hr]]; [left; reflexivity|].
  apply lookup_singleton_Some in Hr as [_ <-]. right. simpl. lia.
Defined.

(** X8 with the German translation only: French is passed over, German is
    used, English is not looked at. *)
Lemma first_accepted_language_is_used_germanOnly :
  ui_lang (tryLanguages germanOnly "tr" "qt" ["fr"; "de-DE"; "en"] noTranslations)
  = Some "de_DE".
Proof.
  assert (Hpre : Forall (λ l, accepted germanOnly "tr" (normalised l) = false) ["fr"])
    by (repeat constructor).
  assert (Hlang : accepted germanOnly "tr" (normalised "de-DE") = true)
    by reflexivity.
  exact (proj1 (proj2 (first_accepted_language_is_used germanOnly "tr" "qt"
                         ["fr"] "de-DE" ["en"] noTranslations Hpre Hlang))).
Defined.

(** X9 with the German translation only and a French system. *)
Lemma no_accepted_language_falls_back_to_C_germanOnly :
  ui_lang (setupTranslations germanOnly "tr" "qt" ["fr"] "" noTranslations)
  = Some "C".
Proof.
  assert (Hsystem : Forall (λ l, accepted germanOnly "tr" (normalised l) = false) ["fr"])
    by (repeat constructor).
  exact (proj2 (no_accepted_language_falls_back_to_C germanOnly "tr" "qt"
                  ["fr"] "" noTranslations Hsystem (or_introl eq_refl))).
Defined.

(** X12: an unknown option behind [--help] does not end the process. *)
Lemma nothing_is_read_after_a_request_for_help_freshOptions :
  parseOptions zeroToInt everyConfDir
    ["nextcloud"; "--logdebug"; "--help"; "--unknown"] freshOptions
  = Continues (setHelp (setLogDebug freshOptions)).
Proof.
  exact (nothing_is_read_after_a_request_for_help zeroToInt everyConfDir
           "nextcloud" ["--logdebug"] "--help" ["--unknown"]
           freshOptions (setLogDebug freshOptions) (or_introl eq_refl) eq_refl).
Defined.

(** X13: [--debug] leaves the flush of the log switched on. *)
Lemma parseOptions_switches_nothing_off_freshOptions :
  keepsSwitchedOn (setLogFlush freshOptions) (setDebug (setLogFlush freshOptions)).
Proof.
  exact (parseOptions_switches_nothing_off zeroToInt everyConfDir
           ["nextcloud"; "--debug"] (setLogFlush freshOptions)
           (setDebug (setLogFlush freshOptions)) eq_refl).
Defined.

(** X14 on the message of a second instance started with [--logdebug]. *)
Lemma options_message_is_parsed_as_the_words_sent_freshInstance :
  slotParseMessage zeroToInt everyConfDir neverLoggingToFile emptyConfigFile 0
    "MSG_PARSEOPTIONS:nextcloud|--logdebug" freshInstance
  = Continues
      (MkInstance (setLogDebug freshOptions)
         (setupLogging neverLoggingToFile emptyConfigFile
            (setLogDebug freshOptions) (logger freshInstance))
         0).
Proof.
  assert (Hargs : Forall (λ arg, occurs "|" arg = false) ["nextcloud"; "--logdebug"])
    by (repeat constructor).
  exact (options_message_is_parsed_as_the_words_sent zeroToInt everyConfDir
           neverLoggingToFile emptyConfigFile 0 ["nextcloud"; "--logdebug"]
           freshInstance Hargs).
Defined.

(** X15 on a message with an option that is not known. *)
Lemma message_exits_on_bad_options_only_freshInstance :
  String.prefix "MSG_PARSEOPTIONS:" "MSG_PARSEOPTIONS:nextcloud|--bogus" = true
  ∧ ¬ wellFormed everyConfDir
        (tail (split "|" (mid 17 "MSG_PARSEOPTIONS:nextcloud|--bogus"))).
Proof.
  exact (proj2 (message_exits_on_bad_options_only zeroToInt everyConfDir
                  neverLoggingToFile emptyConfigFile 0
                  "MSG_PARSEOPTIONS:nextcloud|--bogus" freshInstance
                  1 "Unrecognized option '--bogus'" eq_refl)).
Defined.


(** X17 on the two accounts, after one timeout. *)
Lemma checks_go_on_while_an_account_is_registered_twoAccounts :
  length (accounts (timeout probeSucceeds twoAccounts)) = 2%nat
  ∧ checkConnectionTimerActive (timeout probeSucceeds twoAccounts) = true
  ∧ setupFlow (timeout probeSucceeds twoAccounts) = [].
Proof.
  apply (checks_go_on_while_an_account_is_registered twoAccounts
           (timeout probeSucceeds twoAccounts)).
  - apply (timeouts_more probeSucceeds), timeouts_none.
  - simpl. discriminate.
Defined.

(** X20 with the mirror path set: it is kept, and the sync path is filled
    in. *)
Lemma mount_only_fills_in_empty_settings_mirrorPathSet :
  defaultFileStreamMirrorPath
    (slotMountVirtualDrive "Nextcloud" "C:/data" "X"
       (MkAccount "alice" Connected 0) mirrorPathSet []).1
  = "D:/mirror"
  ∧ defaultFileStreamSyncPath
      (slotMountVirtualDrive "Nextcloud" "C:/data" "X"
         (MkAccount "alice" Connected 0) mirrorPathSet []).1
    = "X:/Nextcloud".
Proof.
  pose proof (mount_only_fills_in_empty_settings "Nextcloud" "C:/data" "X"
                (MkAccount "alice" Connected 0) mirrorPathSet [] eq_refl)
    as Hfilled.
  cbv zeta in Hfilled. destruct Hfilled as (_ & Hmirror & _).
  split; [|reflexivity]. apply Hmirror. simpl. discriminate.
Defined.
